(** * Lask: task registry, codecs and dispatcher

    A shallow embedding of the lask task runner (TypeScript, Deno):
    - the JavaScript values that flow through decoders, handlers and
      encoders, and the host's [JSON.parse] / [JSON.stringify] that the
      JSON codec ([src/DataType/JSON.ts]) delegates to;
    - the plain string codec of [src/IO/File.ts];
    - the [Effect] shell primitive ([src/Effect.ts]);
    - the task registry (a JavaScript object used as a map) and the
      dispatchers ([bite]) of the successive versions of [Lask.ts];
    - the YAML decoder's schema validation. *)

From Stdlib Require Import String Ascii List ZArith Bool Lia Floats.
Import ListNotations.
Open Scope list_scope.
Set Warnings "-register-all".

(* ------------------------------------------------------------------ *)
(** ** JavaScript values *)

(** The values a decoder produces and an encoder consumes.  Strings are
    sequences of 8-bit code units (a subset of JavaScript's UTF-16
    strings); numbers are IEEE binary64 floats.  An object is the list
    of its own enumerable properties in the order
    [OrdinaryOwnPropertyKeys] enumerates them. *)
Inductive jsval : Type :=
| JUndefined
| JNull
| JBool (b : bool)
| JNumber (x : float)
| JString (s : string)
| JArray (xs : list jsval)
| JObject (props : list (string * jsval)).

(** Induction principle through the nested lists. *)
Section jsval_rect.
Variable P : jsval -> Prop.
Hypothesis HU : P JUndefined.
Hypothesis HN : P JNull.
Hypothesis HB : forall b, P (JBool b).
Hypothesis HX : forall x, P (JNumber x).
Hypothesis HS : forall s, P (JString s).
Hypothesis HA : forall xs, Forall P xs -> P (JArray xs).
Hypothesis HO : forall ps, Forall (fun p => P (snd p)) ps -> P (JObject ps).

Fixpoint jsval_ind' (v : jsval) : P v :=
  match v with
  | JUndefined => HU
  | JNull => HN
  | JBool b => HB b
  | JNumber x => HX x
  | JString s => HS s
  | JArray xs =>
      HA xs ((fix go (l : list jsval) : Forall P l :=
                match l with
                | [] => Forall_nil _
                | y :: l' => Forall_cons _ (jsval_ind' y) (go l')
                end) xs)
  | JObject ps =>
      HO ps ((fix go (l : list (string * jsval))
                : Forall (fun p => P (snd p)) l :=
                match l with
                | [] => Forall_nil _
                | y :: l' => Forall_cons _ (jsval_ind' (snd y)) (go l')
                end) ps)
  end.
End jsval_rect.

(** The host's conversions between numbers and their decimal text:
    [Number::toString] (used by [JSON.stringify] on finite numbers) and
    [StringToNumber] (used by [JSON.parse] on a number literal).  Text is
    a list of characters. *)
Class NumberConversions : Type := {
  number_to_string : float -> list ascii;
  string_to_number : list ascii -> float
}.

Definition lit (s : string) : list ascii := list_ascii_of_string s.
Definition quote_mark : ascii := ascii_of_nat 34.
Definition backslash : ascii := ascii_of_nat 92.

(* ------------------------------------------------------------------ *)
(** ** Array indices and property order *)

Definition is_digit (c : ascii) : bool :=
  let n := nat_of_ascii c in (48 <=? n) && (n <=? 57).

Definition digit_value (c : ascii) : Z := Z.of_nat (nat_of_ascii c - 48).

Fixpoint digits_value_acc (acc : Z) (l : list ascii) : Z :=
  match l with
  | [] => acc
  | c :: l' => digits_value_acc (acc * 10 + digit_value c) l'
  end.

(** A property key is an array index when it is the canonical decimal
    text of an integer in [0, 2^32 - 2]. *)
Definition is_array_index (k : string) : bool :=
  match lit k with
  | [] => false
  | [c] => is_digit c
  | c :: l =>
      is_digit c && negb (Ascii.eqb c "0"%char) && forallb is_digit (c :: l)
      && (digits_value_acc 0 (c :: l) <? 4294967295)%Z
  end.

Definition index_value (k : string) : Z := digits_value_acc 0 (lit k).

(** [CreateDataProperty] on an ordinary object: an existing key keeps its
    place and takes the new value; a new array-index key is placed among
    the array-index keys in ascending order; any other new key goes last. *)
Fixpoint insert_index_key (ps : list (string * jsval)) (k : string) (v : jsval)
  : list (string * jsval) :=
  match ps with
  | [] => [(k, v)]
  | (k', v') :: ps' =>
      if is_array_index k' && (index_value k' <? index_value k)%Z
      then (k', v') :: insert_index_key ps' k v
      else (k, v) :: ps
  end.

Fixpoint replace_key (ps : list (string * jsval)) (k : string) (v : jsval)
  : list (string * jsval) :=
  match ps with
  | [] => []
  | (k', v') :: ps' =>
      if String.eqb k' k then (k', v) :: ps' else (k', v') :: replace_key ps' k v
  end.

Definition has_key (ps : list (string * jsval)) (k : string) : bool :=
  existsb (fun p => String.eqb (fst p) k) ps.

Definition create_data_property (ps : list (string * jsval)) (k : string) (v : jsval)
  : list (string * jsval) :=
  if has_key ps k then replace_key ps k v
  else if is_array_index k then insert_index_key ps k v
  else ps ++ [(k, v)].

(* ------------------------------------------------------------------ *)
(** ** [JSON.stringify] (ECMAScript, SerializeJSONProperty and friends) *)

Definition hex_digit (n : nat) : ascii := nth n (lit "0123456789abcdef") "0"%char.

(** [QuoteJSONString] on one code unit. *)
Definition escape_char (c : ascii) : list ascii :=
  let n := nat_of_ascii c in
  if Nat.eqb n 8 then [backslash; "b"%char]
  else if Nat.eqb n 9 then [backslash; "t"%char]
  else if Nat.eqb n 10 then [backslash; "n"%char]
  else if Nat.eqb n 12 then [backslash; "f"%char]
  else if Nat.eqb n 13 then [backslash; "r"%char]
  else if Nat.eqb n 34 then [backslash; quote_mark]
  else if Nat.eqb n 92 then [backslash; backslash]
  else if n <? 32 then
    [backslash; "u"%char; "0"%char; "0"%char; hex_digit (n / 16); hex_digit (n mod 16)]
  else [c].

Definition quote_json_string (s : string) : list ascii :=
  quote_mark :: flat_map escape_char (lit s) ++ [quote_mark].

Fixpoint join {A : Type} (sep : list A) (parts : list (list A)) : list A :=
  match parts with
  | [] => []
  | [p] => p
  | p :: ps => p ++ sep ++ join sep ps
  end.

(** The bracketed layout shared by SerializeJSONArray and
    SerializeJSONObject: [open ... close] with [gap]-driven line breaks. *)
Definition layout (openc closec : ascii) (gap stepback : list ascii)
    (partial : list (list ascii)) : list ascii :=
  match partial with
  | [] => [openc; closec]
  | _ =>
      if (length gap =? 0)%nat then openc :: join [","%char] partial ++ [closec]
      else
        let indent := stepback ++ gap in
        openc :: "010"%char :: indent
          ++ join (","%char :: "010"%char :: indent) partial
          ++ "010"%char :: stepback ++ [closec]
  end.

Section Stringify.
Context `{NumberConversions}.
Variable gap : list ascii.

(** SerializeJSONProperty: [None] is the value [undefined]. *)
Fixpoint serialize (indent : list ascii) (v : jsval) : option (list ascii) :=
  match v with
  | JUndefined => None
  | JNull => Some (lit "null")
  | JBool true => Some (lit "true")
  | JBool false => Some (lit "false")
  | JNumber x => Some (if is_finite x then number_to_string x else lit "null")
  | JString s => Some (quote_json_string s)
  | JArray xs =>
      Some (layout "["%char "]"%char gap indent
              (map (fun e => match serialize (indent ++ gap) e with
                             | Some t => t
                             | None => lit "null"
                             end) xs))
  | JObject ps =>
      Some (layout "{"%char "}"%char gap indent
              (flat_map (fun '(k, e) =>
                 match serialize (indent ++ gap) e with
                 | Some t =>
                     [quote_json_string k ++ ":"%char
                        :: (if (length gap =? 0)%nat then [] else [" "%char]) ++ t]
                 | None => []
                 end) ps))
  end.
End Stringify.

(** [JSON.stringify(v, null, space)]; the result [None] is [undefined]. *)
Definition json_stringify `{NumberConversions} (space : nat) (v : jsval) : option string :=
  option_map string_of_list_ascii (serialize (repeat " "%char (Nat.min space 10)) [] v).

(* ------------------------------------------------------------------ *)
(** ** [JSON.parse] (ECMAScript, the JSON text grammar of ECMA-404) *)

Definition is_json_ws (c : ascii) : bool :=
  let n := nat_of_ascii c in
  Nat.eqb n 32 || Nat.eqb n 9 || Nat.eqb n 10 || Nat.eqb n 13.

Fixpoint skip_ws (s : list ascii) : list ascii :=
  match s with
  | c :: s' => if is_json_ws c then skip_ws s' else s
  | [] => []
  end.

Definition hex_value (c : ascii) : option nat :=
  let n := nat_of_ascii c in
  if (48 <=? n) && (n <=? 57) then Some (n - 48)
  else if (97 <=? n) && (n <=? 102) then Some (n - 87)
  else if (65 <=? n) && (n <=? 70) then Some (n - 55)
  else None.

(** The body of a string literal after its opening quote: the code units
    up to the closing quote, and the text after it.  A raw control
    character is a SyntaxError.  A [\uXXXX] escape above [0xFF] denotes a
    code unit outside the 8-bit strings of this model and is refused. *)
Fixpoint lex_string_body (s : list ascii) : option (list ascii * list ascii) :=
  match s with
  | [] => None
  | c :: s' =>
      let n := nat_of_ascii c in
      if Nat.eqb n 34 then Some ([], s')
      else if n <? 32 then None
      else if Nat.eqb n 92 then
        match s' with
        | e :: s'' =>
            let k := nat_of_ascii e in
            let simple := fun (d : ascii) =>
              match lex_string_body s'' with
              | Some (cs, r) => Some (d :: cs, r)
              | None => None
              end in
            if Nat.eqb k 34 then simple quote_mark
            else if Nat.eqb k 92 then simple backslash
            else if Nat.eqb k 47 then simple "/"%char
            else if Nat.eqb k 98 then simple (ascii_of_nat 8)
            else if Nat.eqb k 102 then simple (ascii_of_nat 12)
            else if Nat.eqb k 110 then simple (ascii_of_nat 10)
            else if Nat.eqb k 114 then simple (ascii_of_nat 13)
            else if Nat.eqb k 116 then simple (ascii_of_nat 9)
            else if Nat.eqb k 117 then
              match s'' with
              | h1 :: h2 :: h3 :: h4 :: s3 =>
                  match hex_value h1, hex_value h2, hex_value h3, hex_value h4 with
                  | Some a, Some b, Some c0, Some d =>
                      let u := a * 4096 + b * 256 + c0 * 16 + d in
                      if u <? 256 then
                        match lex_string_body s3 with
                        | Some (cs, r) => Some (ascii_of_nat u :: cs, r)
                        | None => None
                        end
                      else None
                  | _, _, _, _ => None
                  end
              | _ => None
              end
            else None
        | [] => None
        end
      else
        match lex_string_body s' with
        | Some (cs, r) => Some (c :: cs, r)
        | None => None
        end
  end.

Definition is_number_char (c : ascii) : bool :=
  is_digit c || existsb (Ascii.eqb c) (lit "-+.eE").

Fixpoint span_number (s : list ascii) : list ascii * list ascii :=
  match s with
  | c :: s' =>
      if is_number_char c then let (a, b) := span_number s' in (c :: a, b)
      else ([], s)
  | [] => ([], [])
  end.

(** The JSON number grammar
    [-?], then [0] or a nonzero digit followed by digits, then an optional
    fraction [. digits], then an optional exponent [e|E, +|-?, digits],
    as an automaton. *)
Inductive numstate := NStart | NMinus | NZero | NInt | NDot | NFrac | NExp | NExpSign | NExpDig.

Definition num_step (st : numstate) (c : ascii) : option numstate :=
  let d := is_digit c in
  let is_c := fun x => Ascii.eqb c x in
  match st with
  | NStart => if is_c "-"%char then Some NMinus else if is_c "0"%char then Some NZero
              else if d then Some NInt else None
  | NMinus => if is_c "0"%char then Some NZero else if d then Some NInt else None
  | NZero => if is_c "."%char then Some NDot
             else if is_c "e"%char || is_c "E"%char then Some NExp else None
  | NInt => if d then Some NInt else if is_c "."%char then Some NDot
            else if is_c "e"%char || is_c "E"%char then Some NExp else None
  | NDot => if d then Some NFrac else None
  | NFrac => if d then Some NFrac else if is_c "e"%char || is_c "E"%char then Some NExp else None
  | NExp => if is_c "+"%char || is_c "-"%char then Some NExpSign
            else if d then Some NExpDig else None
  | NExpSign => if d then Some NExpDig else None
  | NExpDig => if d then Some NExpDig else None
  end.

Fixpoint num_run (st : numstate) (l : list ascii) : option numstate :=
  match l with
  | [] => Some st
  | c :: l' => match num_step st c with Some st' => num_run st' l' | None => None end
  end.

Definition num_accepting (st : numstate) : bool :=
  match st with NZero | NInt | NFrac | NExpDig => true | _ => false end.

Definition json_number_lexeme (l : list ascii) : bool :=
  match num_run NStart l with Some st => num_accepting st | None => false end.

Section Parse.
Context `{NumberConversions}.

(** Recursive descent over the text.  [fuel] bounds the nesting; the
    entry point [json_parse] gives more fuel than the text has
    characters, and every call below consumes a character before
    recursing at the same fuel, so the bound never cuts a parse short. *)
Fixpoint parse_value (fuel : nat) (s : list ascii) : option (jsval * list ascii) :=
  match fuel with
  | O => None
  | S f =>
    match skip_ws s with
    | [] => None
    | c :: r =>
      let n := nat_of_ascii c in
      if Nat.eqb n 123 then
        match skip_ws r with
        | c' :: r' => if Nat.eqb (nat_of_ascii c') 125 then Some (JObject [], r')
                      else parse_members f (c' :: r') []
        | [] => None
        end
      else if Nat.eqb n 91 then
        match skip_ws r with
        | c' :: r' => if Nat.eqb (nat_of_ascii c') 93 then Some (JArray [], r')
                      else parse_elements f (c' :: r') []
        | [] => None
        end
      else if Nat.eqb n 34 then
        match lex_string_body r with
        | Some (cs, r') => Some (JString (string_of_list_ascii cs), r')
        | None => None
        end
      else if Nat.eqb n 116 then
        match r with
        | "r"%char :: "u"%char :: "e"%char :: r' => Some (JBool true, r')
        | _ => None
        end
      else if Nat.eqb n 102 then
        match r with
        | "a"%char :: "l"%char :: "s"%char :: "e"%char :: r' => Some (JBool false, r')
        | _ => None
        end
      else if Nat.eqb n 110 then
        match r with
        | "u"%char :: "l"%char :: "l"%char :: r' => Some (JNull, r')
        | _ => None
        end
      else if Nat.eqb n 45 || is_digit c then
        let (lexeme, r') := span_number (c :: r) in
        if json_number_lexeme lexeme then Some (JNumber (string_to_number lexeme), r')
        else None
      else None
    end
  end
with parse_elements (fuel : nat) (s : list ascii) (acc : list jsval)
    : option (jsval * list ascii) :=
  match fuel with
  | O => None
  | S f =>
    match parse_value f s with
    | Some (v, r) =>
        match skip_ws r with
        | c :: r' =>
            if Nat.eqb (nat_of_ascii c) 44 then parse_elements f r' (acc ++ [v])
            else if Nat.eqb (nat_of_ascii c) 93 then Some (JArray (acc ++ [v]), r')
            else None
        | [] => None
        end
    | None => None
    end
  end
with parse_members (fuel : nat) (s : list ascii) (acc : list (string * jsval))
    : option (jsval * list ascii) :=
  match fuel with
  | O => None
  | S f =>
    match skip_ws s with
    | c :: r =>
      if Nat.eqb (nat_of_ascii c) 34 then
        match lex_string_body r with
        | Some (kcs, r1) =>
            match skip_ws r1 with
            | c1 :: r2 =>
                if Nat.eqb (nat_of_ascii c1) 58 then
                  match parse_value f r2 with
                  | Some (v, r3) =>
                      let acc' := create_data_property acc (string_of_list_ascii kcs) v in
                      match skip_ws r3 with
                      | c2 :: r4 =>
                          if Nat.eqb (nat_of_ascii c2) 44 then parse_members f r4 acc'
                          else if Nat.eqb (nat_of_ascii c2) 125 then Some (JObject acc', r4)
                          else None
                      | [] => None
                      end
                  | None => None
                  end
                else None
            | [] => None
            end
        | None => None
        end
      else None
    | [] => None
    end
  end.

(** [JSON.parse(text)]: [None] is a thrown SyntaxError for a text whose
    string literals stay within 8-bit code units; a text with a [\uXXXX]
    escape above [0xFF] is outside this model, and [None] then says
    nothing about it. *)
Definition json_parse (text : string) : option jsval :=
  let t := lit text in
  match parse_value (S (2 * length t)) t with
  | Some (v, r) => match skip_ws r with [] => Some v | _ => None end
  | None => None
  end.
End Parse.

(* ------------------------------------------------------------------ *)
(** ** A concrete number conversion, to run the model on examples *)

(** Decimal text of a natural number. *)
Fixpoint nat_digits_aux (fuel : nat) (n : Z) (acc : list ascii) : list ascii :=
  match fuel with
  | O => acc
  | S f =>
      let acc' := ascii_of_nat (48 + Z.to_nat (n mod 10)) :: acc in
      if (n <? 10)%Z then acc' else nat_digits_aux f (n / 10)%Z acc'
  end.

Definition z_digits (n : Z) : list ascii :=
  (if (n <? 0)%Z then ["-"%char] else []) ++ nat_digits_aux 400 (Z.abs n) [].

(** A finite binary64 value [(-1)^s * m * 2^e] is printed exactly: as an
    integer when [e >= 0], and as [N e-k] with [N = m * 5^k], [k = -e]
    otherwise; reading inverts both forms.  This is not the host's
    shortest-digits [Number::toString], but it has the two properties the
    codecs rely on: it prints a JSON number literal, and reading that
    literal gives back the number (zero is printed [0], as the host does
    for both zeros). *)
Definition example_to_string (x : float) : list ascii :=
  match Prim2SF x with
  | S754_finite s m e =>
      let sgn := if s then ["-"%char] else [] in
      if (0 <=? e)%Z then sgn ++ z_digits (Zpos m * 2 ^ e)
      else if (Zpos m mod 2 ^ (- e) =? 0)%Z then sgn ++ z_digits (Zpos m / 2 ^ (- e))
      else sgn ++ z_digits (Zpos m * 5 ^ (- e)) ++ lit "e-" ++ z_digits (- e)
  | S754_zero _ => lit "0"
  | S754_infinity false => lit "Infinity"
  | S754_infinity true => lit "-Infinity"
  | S754_nan => lit "NaN"
  end.

Fixpoint split_at_e (l : list ascii) : list ascii * list ascii :=
  match l with
  | [] => ([], [])
  | c :: l' => if Ascii.eqb c "e"%char then ([], l')
               else let (a, b) := split_at_e l' in (c :: a, b)
  end.

Definition example_of_string (l : list ascii) : float :=
  let '(sgn, body) := match l with
                      | "-"%char :: r => (true, r)
                      | _ => (false, l)
                      end in
  let '(mant, ex) := split_at_e body in
  let n := digits_value_acc 0 mant in
  match ex with
  | "-"%char :: kd =>
      let k := digits_value_acc 0 kd in
      SF2Prim (binary_normalize 53 1024 (if sgn then - (n / 5 ^ k) else n / 5 ^ k)%Z (- k) sgn)
  | _ => SF2Prim (binary_normalize 53 1024 (if sgn then - n else n)%Z 0 sgn)
  end.

#[export] Instance example_conversions : NumberConversions := {
  number_to_string := example_to_string;
  string_to_number := example_of_string
}.

Definition num (z : Z) : float := SF2Prim (binary_normalize 53 1024 z 0 false).

(* ------------------------------------------------------------------ *)
(** ** Codecs: [json] (src/DataType/JSON.ts) and [string] (src/IO/File.ts) *)

(** [JSONSchema] of src/DataType/JSON.ts; descriptions are irrelevant
    here and left out. *)
Inductive json_schema : Type :=
| SNull
| SBoolean
| SNumber
| SString
| SArray (elements : json_schema)
| SObject (properties : list (string * json_schema)).

Fixpoint lookup_prop (ps : list (string * jsval)) (k : string) : option jsval :=
  match ps with
  | [] => None
  | (k', v) :: ps' => if String.eqb k' k then Some v else lookup_prop ps' k
  end.

(** [JSONType<T>]: the values of the TypeScript type a schema maps to
    ([number] is every IEEE double; an object type is structural, so a
    value may carry more properties than the schema names). *)
Fixpoint conforms (sc : json_schema) (v : jsval) : bool :=
  match sc, v with
  | SNull, JNull => true
  | SBoolean, JBool _ => true
  | SNumber, JNumber _ => true
  | SString, JString _ => true
  | SArray e, JArray xs => forallb (conforms e) xs
  | SObject sps, JObject ps =>
      forallb (fun '(k, sk) => match lookup_prop ps k with
                               | Some v' => conforms sk v'
                               | None => false
                               end) sps
  | _, _ => false
  end.

(** [json(schema)]: [encode] is [JSON.stringify(data, null, 2)], whose
    result is [undefined] ([None]) for [undefined]; [decode] is
    [JSON.parse(data)], which converts its argument with [ToString] first
    (so [undefined] is parsed as the text [undefined]); [None] is a
    thrown SyntaxError (see [json_parse] for the texts outside the model). *)
Definition json_encode `{NumberConversions} (data : jsval) : option string :=
  json_stringify 2 data.

Definition json_decode `{NumberConversions} (data : string) : option jsval :=
  json_parse data.

Definition json_decode_encoded `{NumberConversions} (encoded : option string) : option jsval :=
  json_decode (match encoded with Some s => s | None => "undefined"%string end).

(** [string(description)]: both directions return their argument. *)
Definition string_encode (data : string) : string := data.
Definition string_decode (data : string) : string := data.

(** Values [JSON.stringify] and [JSON.parse] carry through unchanged:
    no [undefined], only finite numbers, and objects whose keys are
    distinct and in the order an ordinary object enumerates them. *)
Fixpoint keys_distinct (ps : list (string * jsval)) : bool :=
  match ps with
  | [] => true
  | (k, _) :: ps' => negb (has_key ps' k) && keys_distinct ps'
  end.

Fixpoint keys_in_order (ps : list (string * jsval)) : bool :=
  match ps with
  | [] => true
  | (k, _) :: ps' =>
      (if is_array_index k
       then forallb (fun p => negb (is_array_index (fst p))
                              || (index_value k <? index_value (fst p))%Z) ps'
       else forallb (fun p => negb (is_array_index (fst p))) ps')
      && keys_in_order ps'
  end.

Fixpoint json_clean (v : jsval) : bool :=
  match v with
  | JUndefined => false
  | JNumber x => is_finite x
  | JArray xs => forallb json_clean xs
  | JObject ps =>
      keys_distinct ps && keys_in_order ps && forallb (fun p => json_clean (snd p)) ps
  | _ => true
  end.

Fixpoint numbers_of (v : jsval) : list float :=
  match v with
  | JNumber x => [x]
  | JArray xs => flat_map numbers_of xs
  | JObject ps => flat_map (fun p => numbers_of (snd p)) ps
  | _ => []
  end.

(** Fuel the parser needs for a value. *)
Fixpoint jsize (v : jsval) : nat :=
  match v with
  | JArray xs => S (fold_right (fun x n => S (jsize x) + n) 0 xs)
  | JObject ps => S (fold_right (fun p n => S (jsize (snd p)) + n) 0 ps)
  | _ => 1
  end.

(** Every number of [v] is printed as a JSON number literal that reads
    back as the same number. *)
Definition numbers_round_trip `{NumberConversions} (v : jsval) : Prop :=
  forall x, In x (numbers_of v) ->
  json_number_lexeme (number_to_string x) = true /\ string_to_number (number_to_string x) = x.

(* ------------------------------------------------------------------ *)
(** ** The event loop

    A command handler is an async function.  Its body is a [proc]: it
    emits observable events, [await]s operations (the caller suspends and
    the operation's continuation resumes when it settles), and calls
    other async functions without awaiting them ([PCall]: the callee runs
    until its first [await], then the caller continues).  Which pending
    operation settles next is chosen by a scheduler oracle, so a property
    proved for every oracle holds whatever the order in which I/O
    completes. *)

Inductive op :=
| OpRead (key : string)           (* [reader.read()] of a custom input *)
| OpTick                          (* [await] of a value that is not a promise *)
| OpInvoke (arg : jsval)          (* the promise of [task.func(arg)] *)
| OpWrite (key : string) (raw : string).  (* [writer.write(raw)] of an output *)

Inductive event :=
| EBegin (o : op)                 (* the operation starts; the caller suspends *)
| EEnd (o : op) (r : jsval)       (* it settles with [r]; its continuation resumes *)
| EStdinRead                      (* [readAllSync(Deno.stdin)] *)
| EDecode (key : string) (raw : jsval)
| EEncode (key : string)
| EStdout (text : string)         (* a [console.log] line on standard output *)
| EConsoleLog (label : string) (arg : jsval)  (* [console.log(label, arg)] *)
| EThrow (msg : string)           (* an exception rejects the running async function *)
| EReturn.                        (* the command handler's promise resolves *)

Inductive proc :=
| PDone
| PEmit (e : event) (k : proc)
| PAwait (o : op) (k : jsval -> proc)
| PCall (p : proc) (k : proc).

Record machine := mkMachine {
  cur : option proc;                         (* the code running now *)
  stack : list proc;                         (* callers of un-awaited async calls *)
  pending : list (op * (jsval -> proc));     (* suspended awaits, in start order *)
  trace : list event
}.

(** The scheduler's choice [i] among the pending operations; an index
    past the end picks the last one. *)
Fixpoint pick {A : Type} (i : nat) (l : list A) {struct l} : option (A * list A) :=
  match l with
  | [] => None
  | [x] => Some (x, [])
  | x :: l' =>
      match i with
      | O => Some (x, l')
      | S j => match pick j l' with Some (y, r) => Some (y, x :: r) | None => None end
      end
  end.

Definition resume (m : machine) : machine :=
  mkMachine (hd_error (stack m)) (tl (stack m)) (pending m) (trace m).

(** [env o] is the value operation [o] settles with. *)
Fixpoint run (fuel : nat) (env : op -> jsval) (sched : list nat) (m : machine) : machine :=
  match fuel with
  | O => m
  | S f =>
      match cur m with
      | Some PDone => run f env sched (resume m)
      | Some (PEmit e k) =>
          run f env sched (mkMachine (Some k) (stack m) (pending m) (trace m ++ [e]))
      | Some (PAwait o k) =>
          run f env sched
            (resume (mkMachine None (stack m) (pending m ++ [(o, k)]) (trace m ++ [EBegin o])))
      | Some (PCall p k) => run f env sched (mkMachine (Some p) (k :: stack m) (pending m) (trace m))
      | None =>
          match pick (hd 0 sched) (pending m) with
          | None => m
          | Some ((o, k), rest) =>
              run f env (tl sched)
                (mkMachine (Some (k (env o))) (stack m) rest (trace m ++ [EEnd o (env o)]))
          end
      end
  end.

Definition start (p : proc) : machine := mkMachine (Some p) [] [] [].

(** The events of one dispatch. *)
Definition dispatch_trace (fuel : nat) (env : op -> jsval) (sched : list nat) (p : proc)
  : list event :=
  trace (run fuel env sched (start p)).

(* ------------------------------------------------------------------ *)
(** ** The command handler of [Lask.bite] (src/src/Lask.ts) *)

(** [InputSignature], [OutputSignature] and [Signature].  An encoder
    result [None] is an [encode] that returned [undefined] or [null]. *)
Record InputSignature := { decoder : option (string -> jsval) }.
Record OutputSignature := { encoder : option (jsval -> option string) }.
Record Signature := { input : option InputSignature; output : option OutputSignature }.

(** [Deno.stdin]: whether it is a terminal, and what [readAllSync]
    returns when it is read. *)
Record Stdin := { isTerminal : bool; contents : string }.

Definition is_undefined (v : jsval) : bool :=
  match v with JUndefined => true | _ => false end.

(** [console.log(x)] for [x] a string or [undefined]. *)
Definition console_log_line (x : option string) : string :=
  ((match x with Some s => s | None => "undefined" end) ++ String "010"%char EmptyString)%string.

Definition input_decoder (sig : Signature) : option (string -> jsval) :=
  match input sig with Some i => decoder i | None => None end.

Definition output_encoder (sig : Signature) : option (jsval -> option string) :=
  match output sig with Some o => encoder o | None => None end.

(** [handler: async (_args) => { ... }] of each subcommand. *)
Definition lask_handler `{NumberConversions} (stdin : Stdin) (sig : Signature) : proc :=
  let k_invoke (parsedInput : jsval) :=
    PAwait (OpInvoke parsedInput) (fun output =>
      if is_undefined output then PEmit EReturn PDone
      else
        let encodedOutput :=
          match output_encoder sig with
          | Some enc => match enc output with
                        | Some s => Some s
                        | None => json_stringify 0 output
                        end
          | None => json_stringify 0 output
          end in
        PEmit (EEncode "output") (PEmit (EStdout (console_log_line encodedOutput))
                                    (PEmit EReturn PDone))) in
  if isTerminal stdin then k_invoke JUndefined
  else
    PEmit EStdinRead
      (match input_decoder sig with
       | Some dec => PEmit (EDecode "input" (JString (contents stdin)))
                       (k_invoke (dec (contents stdin)))
       | None => k_invoke JUndefined
       end).

(* ------------------------------------------------------------------ *)
(** ** The command handler of [Lask.bite] with named inputs and outputs
    (src/unnamed/part_003, lines 162-183; part_001, lines 129-149, is
    the same code) *)

(** An [Input]: a positional parameter, an option, or a custom input
    read by its [reader] and decoded by its [decoder]. *)
Inductive Input :=
| InParam
| InOption
| InCustom (decoder : jsval -> jsval).

(** An [Output]: its [encoder]; its [writer] writes under the output's key. *)
Record Output := { out_encoder : jsval -> string }.

(** [o[key]] on the handler's result: reading a property of [undefined]
    or [null] throws a [TypeError]; an object has its own properties, an
    array its elements (at an array index below its length) and its
    [length], a string its code units and its [length]; any other name
    reads [undefined].  A name the value inherits from its prototype
    ([toString] from [Object.prototype], [map] from [Array.prototype],
    ...) reads a method, which is not a [jsval]: those reads are outside
    this model, which gives [undefined] for them. *)
Definition get_prop (o : jsval) (key : string) : option jsval :=
  match o with
  | JUndefined | JNull => None
  | JObject ps => Some (match lookup_prop ps key with Some v => v | None => JUndefined end)
  | JArray xs =>
      Some (if String.eqb key "length" then JNumber (num (Z.of_nat (length xs)))
            else if is_array_index key && (index_value key <? Z.of_nat (length xs))%Z
            then nth (Z.to_nat (index_value key)) xs JUndefined
            else JUndefined)
  | JString t =>
      Some (if String.eqb key "length" then JNumber (num (Z.of_nat (String.length t)))
            else if is_array_index key && (index_value key <? Z.of_nat (String.length t))%Z
            then match String.get (Z.to_nat (index_value key)) t with
                 | Some c => JString (String c EmptyString)
                 | None => JUndefined
                 end
            else JUndefined)
  | JBool _ | JNumber _ => Some JUndefined
  end.

(** [{...a, ...b}]. *)
Definition spread (a b : list (string * jsval)) : jsval :=
  JObject (fold_left (fun o '(k, v) => create_data_property o k v) (a ++ b) []).

(** [for (const key of Object.keys(task.inputs)) { ... }]: each custom
    input is read, then decoded, both awaited; [inputs[key] = ...]. *)
Fixpoint read_inputs (l : list (string * Input)) (inputs : list (string * jsval))
    (k : list (string * jsval) -> proc) : proc :=
  match l with
  | [] => k inputs
  | (key, InCustom dec) :: l' =>
      PAwait (OpRead key) (fun raw =>
        PEmit (EDecode key raw)
          (PAwait OpTick (fun _ => read_inputs l' (create_data_property inputs key (dec raw)) k)))
  | (_, _) :: l' => read_inputs l' inputs k
  end.

(** [Object.keys(task.outputs).forEach(async (key) => { ... })]: every
    callback is called, and runs up to its [await writer.write(raw)];
    no callback's promise is awaited. *)
Fixpoint write_outputs (output : jsval) (l : list (string * Output)) (k : proc) : proc :=
  match l with
  | [] => k
  | (key, o) :: l' =>
      PCall (match get_prop output key with
             | None => PEmit (EThrow "TypeError") PDone
             | Some data =>
                 PEmit (EEncode key) (PAwait (OpWrite key (out_encoder o data)) (fun _ => PDone))
             end)
            (write_outputs output l' k)
  end.

Definition io_handler (taskName : string) (args : list (string * jsval))
    (inputs : list (string * Input)) (outputs : list (string * Output)) : proc :=
  read_inputs inputs [] (fun inputs_obj =>
    PEmit (EConsoleLog ("Inputs for task " ++ taskName ++ ":") (spread args inputs_obj))
      (PAwait (OpInvoke (spread args inputs_obj)) (fun output =>
         write_outputs output outputs (PEmit EReturn PDone)))).

(* ------------------------------------------------------------------ *)
(** ** Observing a dispatch's events *)

Definition is_input_event (e : event) : bool :=
  match e with
  | EStdinRead | EDecode _ _ | EBegin (OpRead _) | EEnd (OpRead _) _ => true
  | _ => false
  end.

Definition is_output_event (e : event) : bool :=
  match e with
  | EEncode _ | EStdout _ | EBegin (OpWrite _ _) | EEnd (OpWrite _ _) _ => true
  | _ => false
  end.

Definition is_write_end (e : event) : bool :=
  match e with EEnd (OpWrite _ _) _ => true | _ => false end.

(** The arguments the task's function is called with. *)
Fixpoint invocations (tr : list event) : list jsval :=
  match tr with
  | [] => []
  | EBegin (OpInvoke a) :: tr' => a :: invocations tr'
  | _ :: tr' => invocations tr'
  end.

Definition stdin_reads (tr : list event) : nat :=
  length (filter (fun e => match e with EStdinRead => true | _ => false end) tr).

Fixpoint stdout_lines (tr : list event) : list string :=
  match tr with
  | [] => []
  | EStdout s :: tr' => s :: stdout_lines tr'
  | _ :: tr' => stdout_lines tr'
  end.

Fixpoint decoded_keys (tr : list event) : list string :=
  match tr with
  | [] => []
  | EDecode k _ :: tr' => k :: decoded_keys tr'
  | _ :: tr' => decoded_keys tr'
  end.

Fixpoint custom_keys (l : list (string * Input)) : list string :=
  match l with
  | [] => []
  | (k, InCustom _) :: l' => k :: custom_keys l'
  | _ :: l' => custom_keys l'
  end.

(** The task's function is called once; before the call every input of
    [keys] has been read and decoded, and no output has been encoded or
    written; after its promise settles nothing more is read or decoded. *)
Definition invoked_between_io (keys : list string) (tr : list event) : Prop :=
  exists pre a out post,
    tr = pre ++ EBegin (OpInvoke a) :: EEnd (OpInvoke a) out :: post /\
    forallb (fun e => negb (is_output_event e)) pre = true /\
    forallb (fun e => negb (is_input_event e)) post = true /\
    invocations pre = [] /\ invocations post = [] /\ decoded_keys pre = keys.

Definition is_invoke_event (e : event) : bool :=
  match e with EBegin (OpInvoke _) => true | _ => false end.

(** Every event [p] may emit, including after each of its [await]s, is
    accepted by [Q]. *)
Inductive only (Q : event -> bool) : proc -> Prop :=
| only_done : only Q PDone
| only_emit e k : Q e = true -> only Q k -> only Q (PEmit e k)
| only_await o k :
    Q (EBegin o) = true -> (forall r, Q (EEnd o r) = true) -> (forall r, only Q (k r)) ->
    only Q (PAwait o k)
| only_call p k : only Q p -> only Q k -> only Q (PCall p k).

Definition machine_only (Q : event -> bool) (m : machine) : Prop :=
  match cur m with Some p => only Q p | None => True end /\
  Forall (only Q) (stack m) /\
  Forall (fun ok => (forall r, Q (EEnd (fst ok) r) = true) /\ forall r, only Q (snd ok r))
    (pending m).

(* ------------------------------------------------------------------ *)
(** ** Example dispatches *)

Definition piped_stdin : Stdin := {| isTerminal := false; contents := "hello"%string |}.
Definition terminal_stdin : Stdin := {| isTerminal := true; contents := ""%string |}.

(** [task("echo", { input: { decoder: string() } }, ...)]. *)
Definition echo_signature : Signature :=
  {| input := Some {| decoder := Some JString |}; output := None |}.

(** A task registered with an empty signature. *)
Definition bare_signature : Signature := {| input := None; output := None |}.

(** The task returns its input; a reader returns a line naming its key. *)
Definition echo_env (o : op) : jsval :=
  match o with
  | OpInvoke a => a
  | OpRead k => JString (String.append "text of "%string k)
  | _ => JUndefined
  end.

(** A [part_003] task with one custom input and two file outputs. *)
Definition text_input : list (string * Input) := [("text"%string, InCustom (fun v => v))].

Definition two_outputs : list (string * Output) :=
  [("report"%string, {| out_encoder := fun _ => "R"%string |}); ("summary"%string, {| out_encoder := fun _ => "S"%string |})].

Definition two_outputs_env (o : op) : jsval :=
  match o with
  | OpInvoke _ => JObject [("report"%string, JString "r"%string); ("summary"%string, JString "s"%string)]
  | _ => JUndefined
  end.

(* ------------------------------------------------------------------ *)
(** ** Log records and errors *)

(** A record written by a winston logger ([LaskLogger]): its level and
    its message, as UTF-16 code units (the printed line adds a timestamp
    and the logger's name). *)
Record log_entry := { level : string; message : list Z }.

(** The code units of a string of this model, whose code units are 8-bit. *)
Definition units (s : string) : list Z :=
  map (fun c => Z.of_nat (nat_of_ascii c)) (list_ascii_of_string s).

(** A thrown [new Error(msg)]: its [name] and [message], the message a
    string of this model or, where it comes from decoded bytes, UTF-16
    code units. *)
Record js_error (M : Type) := { error_name : string; error_message : M }.
Arguments Build_js_error {M} error_name error_message.
Arguments error_name {M} j.
Arguments error_message {M} j.

(** [${n}] of an integral number. *)
Definition z_text (n : Z) : string := string_of_list_ascii (z_digits n).

(* ------------------------------------------------------------------ *)
(** ** The task registry: a plain JavaScript object *)

(** The properties of [Object.prototype].  Deno deletes its [__proto__]
    accessor, so [__proto__] is not among them: it is an ordinary key. *)
Definition object_prototype_names : list string :=
  ["constructor"; "__defineGetter__"; "__defineSetter__"; "hasOwnProperty";
   "__lookupGetter__"; "__lookupSetter__"; "isPrototypeOf";
   "propertyIsEnumerable"; "toString"; "valueOf"; "toLocaleString"]%string.

Section Registry.
Variable T : Type.

(** [{}] as the registry sees it: its own properties, each key once
    (the order [Object.keys] lists them in is not modelled).  Its
    prototype is [Object.prototype], and nothing changes it: under Deno
    [o["__proto__"] = v] creates an own property like any other key. *)
Record registry := { own : list (string * T) }.

Definition empty_registry : registry := {| own := [] |}.

Fixpoint own_get (ps : list (string * T)) (k : string) : option T :=
  match ps with
  | [] => None
  | (k', v) :: r => if String.eqb k k' then Some v else own_get r k
  end.

Fixpoint own_set (ps : list (string * T)) (k : string) (v : T) : list (string * T) :=
  match ps with
  | [] => [(k, v)]
  | (k', v') :: r => if String.eqb k k' then (k, v) :: r else (k', v') :: own_set r k v
  end.

(** [o[k] = v]: an own data property, updated in place or created (no
    object on the prototype chain has a setter or a read-only property
    of that name). *)
Definition set_prop (o : registry) (k : string) (v : T) : registry :=
  {| own := own_set (own o) k v |}.

(** What [o[k]] reads: a registered value, a method inherited from
    [Object.prototype] (not a registered value), or [undefined]. *)
Inductive lookup_result := Found (v : T) | Inherited (k : string) | Absent.

Definition get_task (o : registry) (k : string) : lookup_result :=
  match own_get (own o) k with
  | Some v => Found v
  | None => if existsb (String.eqb k) object_prototype_names then Inherited k else Absent
  end.
End Registry.

Arguments empty_registry {T}.
Arguments Found {T} v.
Arguments Inherited {T} k.
Arguments Absent {T}.
Arguments own {T} r.
Arguments set_prop {T} o k v.
Arguments get_task {T} o k.

Arguments own_get {T} ps k.
Arguments own_set {T} ps k v.

(** [Lask.ts]: [this.tasks[name] = { func, signature }], where [func]
    closes over the handler (and the task's own [Effect]). *)
Record TaskEntry (F : Type) := { func : F; signature : Signature }.
Arguments func {F} t.
Arguments signature {F} t.

(** [task(name, signature, handler)] of [Lask.ts], on the registry. *)
Definition task {F : Type} (tasks : registry (TaskEntry F)) (name : string) (sig : Signature)
    (handler : F) : registry (TaskEntry F) :=
  set_prop tasks name {| func := handler; signature := sig |}.

(* ------------------------------------------------------------------ *)
(** ** The command line of [part_004] (first version) and [part_002] *)

(** In these versions a registered task is a function from the parsed
    input to the (awaited) result. *)
Definition TaskFn := jsval -> jsval.

(** What the process writes: a line on stdout ([console.log]), a line on
    stderr ([console.error]), or a record of the [Main] logger (winston
    writes it on stderr). *)
Inductive console_line :=
| OutLine (s : string)
| ErrLine (s : string)
| LogLine (e : log_entry).

(** How [bite] ends: normally; with an uncaught exception (named); or by
    calling a value inherited from a prototype, which this model does
    not follow further. *)
Inductive completion := Completed | Uncaught (e : string) | CallsInherited (k : string).

Record bite_result := { console : list console_line; completion_of : completion }.

(** Deno's exit status: 0 after a normal end, 1 after an uncaught
    exception. *)
Definition exit_status (c : completion) : option Z :=
  match c with Completed => Some 0%Z | Uncaught _ => Some 1%Z | CallsInherited _ => None end.

(** [Deno.args[0]] used as a property key: [undefined] becomes the key
    ["undefined"]. *)
Definition task_name (argv : list string) : string :=
  match argv with [] => "undefined"%string | a :: _ => a end.

(** [async bite()] of the first [part_004] [Lask]. *)
Definition bite_part004 `{NumberConversions} (tasks : registry TaskFn) (argv : list string)
    (stdin : Stdin) : bite_result :=
  let taskName := task_name argv in
  let input := if isTerminal stdin then None else Some (contents stdin) in
  let parsedInput := match input with None => Some JUndefined | Some s => json_decode s end in
  match get_task tasks taskName with
  | Found f =>
      match parsedInput with
      | None => {| console := []; completion_of := Uncaught "SyntaxError" |}
      | Some v =>
          let output := f v in
          {| console := if is_undefined output then []
                        else [OutLine (console_log_line (json_stringify 0 output))];
             completion_of := Completed |}
      end
  | Inherited k =>
      match parsedInput with
      | None => {| console := []; completion_of := Uncaught "SyntaxError" |}
      | Some _ => {| console := []; completion_of := CallsInherited k |}
      end
  | Absent =>
      {| console := [LogLine {| level := "error"; message := units ("Task not found: " ++ taskName) |}];
         completion_of := Completed |}
  end.

(** [bite()] of [part_002]: an interactive stdin is read as ["null"]. *)
Definition bite_part002 `{NumberConversions} (tasks : registry TaskFn) (argv : list string)
    (stdin : Stdin) : bite_result :=
  let taskName := task_name argv in
  let input := if isTerminal stdin then "null"%string else contents stdin in
  match get_task tasks taskName with
  | Found f =>
      match json_decode input with
      | None => {| console := []; completion_of := Uncaught "SyntaxError" |}
      | Some v =>
          {| console := [OutLine (console_log_line (json_stringify 0 (f v)))];
             completion_of := Completed |}
      end
  | Inherited k =>
      match json_decode input with
      | None => {| console := []; completion_of := Uncaught "SyntaxError" |}
      | Some _ => {| console := []; completion_of := CallsInherited k |}
      end
  | Absent =>
      {| console := [ErrLine ("Task not found: " ++ taskName)%string]; completion_of := Completed |}
  end.


(* ------------------------------------------------------------------ *)
(** ** [YAMLDecoder] of [part_008] *)

(** [YAMLSchema]; the optional descriptions play no part in decoding. *)
Inductive YAMLSchema :=
| YVoid
| YNull
| YBoolean
| YNumber
| YString
| YArray (elements : YAMLSchema)
| YObject (properties : list (string * YAMLSchema))
| YDate.

(** The values [yamlParse] returns, and what reading a member of them
    can give: [undefined], [null], primitives, [Date] instances, arrays,
    plain objects (own enumerable properties in order), and functions
    (inherited methods). *)
Inductive ydata :=
| DUndefined
| DNull
| DBool (b : bool)
| DNumber (x : float)
| DString (s : string)
| DDate (t : float)
| DArray (items : list ydata)
| DObject (ps : list (string * ydata))
| DFunction.

(** [typeof data]. *)
Definition typeof (d : ydata) : string :=
  match d with
  | DUndefined => "undefined"
  | DBool _ => "boolean"
  | DNumber _ => "number"
  | DString _ => "string"
  | DFunction => "function"
  | DNull | DDate _ | DArray _ | DObject _ => "object"
  end%string.

Fixpoint ydata_own (ps : list (string * ydata)) (k : string) : option ydata :=
  match ps with
  | [] => None
  | (k', v) :: r => if String.eqb k k' then Some v else ydata_own r k
  end.

Section Validate.
(** [data[key]] for a key that is not an own property: what the
    prototype chain of [data] gives ([undefined] for a name no
    prototype has). *)
Variable inherited : ydata -> string -> ydata.

(** [(data as Record<string, unknown>)[key]] on an object, an array or
    a [Date]. *)
Definition member (data : ydata) (key : string) : ydata :=
  match data with
  | DObject ps => match ydata_own ps key with Some v => v | None => inherited data key end
  | DArray items =>
      if is_array_index key && (index_value key <? Z.of_nat (length items))%Z
      then nth (Z.to_nat (index_value key)) items DUndefined
      else if String.eqb key "length" then DNumber (num (Z.of_nat (length items)))
      else inherited data key
  | _ => inherited data key
  end.

(** [typeof data !== "object" || data === null] fails. *)
Definition is_object_type (d : ydata) : bool :=
  match d with DDate _ | DArray _ | DObject _ => true | _ => false end.

(** [validateAgainstSchema(data, schema)]: [Some msg] when it throws
    [new Error(msg)]. *)
Fixpoint validateAgainstSchema (data : ydata) (schema : YAMLSchema) {struct schema}
    : option string :=
  let fail (kind : string) := Some ("Expected " ++ kind ++ ", got " ++ typeof data)%string in
  match schema with
  | YVoid => match data with DUndefined => None | _ => fail "void"%string end
  | YNull => match data with DNull => None | _ => fail "null"%string end
  | YBoolean => match data with DBool _ => None | _ => fail "boolean"%string end
  | YNumber => match data with DNumber _ => None | _ => fail "number"%string end
  | YString => match data with DString _ => None | _ => fail "string"%string end
  | YDate => match data with DDate _ => None | _ => fail "Date"%string end
  | YArray elements =>
      match data with
      | DArray items =>
          (fix each (index : Z) (l : list ydata) : option string :=
             match l with
             | [] => None
             | item :: rest =>
                 match validateAgainstSchema item elements with
                 | Some msg => Some ("Array item " ++ z_text index ++ ": " ++ msg)%string
                 | None => each (index + 1)%Z rest
                 end
             end) 0%Z items
      | _ => fail "array"%string
      end
  | YObject properties =>
      if is_object_type data then
        (fix each (l : list (string * YAMLSchema)) : option string :=
           match l with
           | [] => None
           | (key, propSchema) :: rest =>
               match validateAgainstSchema (member data key) propSchema with
               | Some msg => Some msg
               | None => each rest
               end
           end) properties
      else fail "object"%string
  end.

(** [decode(data)]: [yamlParse] is the library's parser ([inl msg]
    when it throws an [Error] with that message); the schema is the
    one given to the constructor, if any. *)
Definition yaml_decode (yamlParse : string -> string + ydata) (schema : option YAMLSchema)
    (data : string) : js_error string + ydata :=
  let rethrow (msg : string) :=
    inl {| error_name := "Error"; error_message := ("YAML parsing failed: " ++ msg)%string |} in
  match yamlParse data with
  | inl msg => rethrow msg
  | inr parsed =>
      match schema with
      | Some sc => match validateAgainstSchema parsed sc with
                   | Some msg => rethrow msg
                   | None => inr parsed
                   end
      | None => inr parsed
      end
  end.
End Validate.

(** The prototype chain of a plain object: the methods of
    [Object.prototype], and [undefined] for every other name. *)
Definition plain_inherited (_ : ydata) (key : string) : ydata :=
  if existsb (String.eqb key) object_prototype_names then DFunction else DUndefined.

(* ------------------------------------------------------------------ *)
(** ** [YAMLInput], [YAMLOutput] and [YAMLSignature] of [part_008] *)

(** [if (x)]: the falsy values are [undefined], [null], [false], [0],
    [-0], [NaN] and the empty string. *)
Definition truthy (v : jsval) : bool :=
  match v with
  | JUndefined | JNull => false
  | JBool b => b
  | JNumber x => negb (PrimFloat.eqb x (num 0)) && PrimFloat.eqb x x
  | JString s => negb (String.eqb s "")
  | JArray _ | JObject _ => true
  end.

(** [options?.key] on an optional options object ([None]: the argument
    was omitted). *)
Definition optional_get (options : option (list (string * jsval))) (key : string) : jsval :=
  match options with
  | None => JUndefined
  | Some ps => match lookup_prop ps key with Some v => v | None => JUndefined end
  end.

(** The defaults of the [YAMLEncoder] constructor. *)
Definition yaml_encoder_defaults : list (string * jsval) :=
  [("indent"%string, JNumber (num 2)); ("arrayIndent"%string, JBool true);
   ("skipInvalid"%string, JBool false); ("flowLevel"%string, JNumber (num (-1)))].

(** [new YAMLEncoder(options)]: its [this.options], the object literal
    [{ indent: 2, arrayIndent: true, skipInvalid: false, flowLevel: -1,
    ...options }], with [options = {}] when the argument is [undefined]. *)
Definition YAMLEncoder_options (options : option (list (string * jsval))) : jsval :=
  spread yaml_encoder_defaults (match options with Some ps => ps | None => [] end).

(** An input signature: its [schema] and the schema its [YAMLDecoder]
    validates against ([None]: it does not validate). *)
Record YAMLInputSignature := { yin_schema : YAMLSchema; yin_decoder_schema : option YAMLSchema }.

(** An output signature: its [schema] and its [YAMLEncoder]'s options. *)
Record YAMLOutputSignature := { yout_schema : YAMLSchema; yout_options : jsval }.

Definition YAMLInput (schema : YAMLSchema) (options : option (list (string * jsval)))
    : YAMLInputSignature :=
  {| yin_schema := schema;
     yin_decoder_schema := if truthy (optional_get options "validate") then Some schema else None |}.

Definition YAMLOutput (schema : YAMLSchema) (options : option (list (string * jsval)))
    : YAMLOutputSignature :=
  {| yout_schema := schema; yout_options := YAMLEncoder_options options |}.

(** [YAMLSignature(schema, options)]: the options object passed to
    [YAMLOutput] has all four keys, [undefined] where [options] lacks
    them. *)
Definition YAMLSignature (schema : YAMLSchema) (options : option (list (string * jsval)))
    : YAMLInputSignature * YAMLOutputSignature :=
  (YAMLInput schema (Some [("validate"%string, optional_get options "validate")]),
   YAMLOutput schema (Some [("indent"%string, optional_get options "indent");
                            ("arrayIndent"%string, optional_get options "arrayIndent");
                            ("skipInvalid"%string, optional_get options "skipInvalid");
                            ("flowLevel"%string, optional_get options "flowLevel")])).

(** The type names in the messages of [validateAgainstSchema]. *)
Definition schema_kind (schema : YAMLSchema) : string :=
  match schema with
  | YVoid => "void" | YNull => "null" | YBoolean => "boolean" | YNumber => "number"
  | YString => "string" | YDate => "Date" | YArray _ => "array" | YObject _ => "object"
  end%string.

(* ------------------------------------------------------------------ *)
(** ** Text on the standard streams and in files (src/src/IO/File.ts,
    src/unnamed/part_000, part_009): [TextEncoder] and [TextDecoder] *)

(** A JavaScript string as its UTF-16 code units; bytes as integers. *)
Definition utf16 := list Z.
Definition bytes := list Z.

Section Utf8.
Local Open Scope Z_scope.

Definition is_high_surrogate (c : Z) : bool := (0xD800 <=? c) && (c <=? 0xDBFF).
Definition is_low_surrogate (c : Z) : bool := (0xDC00 <=? c) && (c <=? 0xDFFF).

(** The scalar values of a string, as the [USVString] conversion of
    [TextEncoder.encode] gives them: a surrogate pair is one code point,
    a lone surrogate is U+FFFD. *)
Fixpoint scalar_values (s : utf16) : list Z :=
  match s with
  | [] => []
  | c :: r =>
      if is_high_surrogate c then
        match r with
        | d :: r' =>
            if is_low_surrogate d
            then (0x10000 + Z.shiftl (Z.land c 0x3FF) 10 + Z.land d 0x3FF) :: scalar_values r'
            else 0xFFFD :: scalar_values r
        | [] => [0xFFFD]
        end
      else if is_low_surrogate c then 0xFFFD :: scalar_values r
      else c :: scalar_values r
  end.

(** The UTF-8 encoder of the Encoding Standard, its loop unrolled. *)
Definition utf8_encode_point (cp : Z) : bytes :=
  let cont (shift : Z) := Z.lor 0x80 (Z.land (Z.shiftr cp shift) 0x3F) in
  if cp <=? 0x7F then [cp]
  else if cp <=? 0x7FF then [Z.shiftr cp 6 + 0xC0; cont 0]
  else if cp <=? 0xFFFF then [Z.shiftr cp 12 + 0xE0; cont 6; cont 0]
  else [Z.shiftr cp 18 + 0xF0; cont 12; cont 6; cont 0].

(** [new TextEncoder().encode(s)]. *)
Definition text_encode (s : utf16) : bytes := flat_map utf8_encode_point (scalar_values s).

(** The state of the UTF-8 decoder of the Encoding Standard. *)
Record utf8_state := {
  utf8_code_point : Z; utf8_bytes_seen : Z; utf8_bytes_needed : Z;
  utf8_lower_boundary : Z; utf8_upper_boundary : Z }.

Definition utf8_init : utf8_state :=
  {| utf8_code_point := 0; utf8_bytes_seen := 0; utf8_bytes_needed := 0;
     utf8_lower_boundary := 0x80; utf8_upper_boundary := 0xBF |}.

(** One byte through the decoder's handler: the code points it emits
    (U+FFFD for an error, in replacement mode), the new state, and
    whether the byte is restored to the queue. *)
Definition utf8_step (st : utf8_state) (b : Z) : list Z * utf8_state * bool :=
  let lower := utf8_lower_boundary st in
  let upper := utf8_upper_boundary st in
  let lead (lower' upper' needed cp : Z) :=
    ([], {| utf8_code_point := cp; utf8_bytes_seen := utf8_bytes_seen st;
            utf8_bytes_needed := needed; utf8_lower_boundary := lower';
            utf8_upper_boundary := upper' |}, false) in
  if utf8_bytes_needed st =? 0 then
    if (0 <=? b) && (b <=? 0x7F) then ([b], st, false)
    else if (0xC2 <=? b) && (b <=? 0xDF) then lead lower upper 1 (Z.land b 0x1F)
    else if (0xE0 <=? b) && (b <=? 0xEF) then
      lead (if b =? 0xE0 then 0xA0 else lower) (if b =? 0xED then 0x9F else upper) 2 (Z.land b 0xF)
    else if (0xF0 <=? b) && (b <=? 0xF4) then
      lead (if b =? 0xF0 then 0x90 else lower) (if b =? 0xF4 then 0x8F else upper) 3 (Z.land b 0x7)
    else ([0xFFFD], st, false)
  else if negb ((lower <=? b) && (b <=? upper)) then ([0xFFFD], utf8_init, true)
  else
    let cp := Z.lor (Z.shiftl (utf8_code_point st) 6) (Z.land b 0x3F) in
    let seen := utf8_bytes_seen st + 1 in
    if negb (seen =? utf8_bytes_needed st) then
      ([], {| utf8_code_point := cp; utf8_bytes_seen := seen;
              utf8_bytes_needed := utf8_bytes_needed st;
              utf8_lower_boundary := 0x80; utf8_upper_boundary := 0xBF |}, false)
    else ([cp], utf8_init, false).

(** The decoder over a whole byte queue; a restored byte is handled
    again, in the reset state; the end of the queue in the middle of a
    sequence is an error. *)
Fixpoint utf8_run (st : utf8_state) (bs : bytes) : list Z :=
  match bs with
  | [] => if utf8_bytes_needed st =? 0 then [] else [0xFFFD]
  | b :: r =>
      let '(out, st', again) := utf8_step st b in
      if again then
        let '(out2, st2, _) := utf8_step st' b in out ++ out2 ++ utf8_run st2 r
      else out ++ utf8_run st' r
  end.

(** A code point as UTF-16 code units. *)
Definition to_utf16 (cp : Z) : utf16 :=
  if cp <=? 0xFFFF then [cp]
  else [Z.shiftr (cp - 0x10000) 10 + 0xD800; Z.land (cp - 0x10000) 0x3FF + 0xDC00].

(** [new TextDecoder().decode(bs)]: UTF-8, replacement mode, and a
    first code point U+FEFF (a byte order mark) is dropped. *)
Definition text_decode (bs : bytes) : utf16 :=
  let cps := utf8_run utf8_init bs in
  flat_map to_utf16 (match cps with 0xFEFF :: r => r | _ => cps end).

(** [s.toWellFormed()]: every lone surrogate replaced by U+FFFD. *)
Fixpoint to_well_formed (s : utf16) : utf16 :=
  match s with
  | [] => []
  | c :: r =>
      if is_high_surrogate c then
        match r with
        | d :: r' => if is_low_surrogate d then c :: d :: to_well_formed r'
                     else 0xFFFD :: to_well_formed r
        | [] => [0xFFFD]
        end
      else if is_low_surrogate c then 0xFFFD :: to_well_formed r
      else c :: to_well_formed r
  end.

(** A string is made of code units. *)
Definition code_units (s : utf16) : bool := forallb (fun c => (0 <=? c) && (c <=? 0xFFFF)) s.

(** A Unicode scalar value: a code point that is not a surrogate. *)
Definition scalar (cp : Z) : Prop := 0 <= cp <= 0x10FFFF /\ ~ (0xD800 <= cp <= 0xDFFF).

End Utf8.

Section Files.
(** The file a path names, once resolved against the working directory
    and links, and whether [Deno.writeFile] may create or truncate it
    (its directory exists and the permissions allow it). *)
Variable resolve : string -> string.
Variable writable : string -> bool.
(** Whether [Deno.readFile] may read a file: [--allow-read] covers it and
    the file's mode lets the process read it. *)
Variable readable : string -> bool.

(** The bytes of each file. *)
Definition file_system := string -> option bytes.

(** [file(path).write(data)]: [None] is a rejected promise. *)
Definition file_write (fs : file_system) (path : string) (data : utf16) : option file_system :=
  if writable (resolve path) then
    Some (fun f => if String.eqb f (resolve path) then Some (text_encode data) else fs f)
  else None.

(** [file(path).read()]: [None] is a rejected promise (PermissionDenied,
    or NotFound). *)
Definition file_read (fs : file_system) (path : string) : option utf16 :=
  if readable (resolve path) then option_map text_decode (fs (resolve path)) else None.
End Files.

(* ------------------------------------------------------------------ *)
(** ** [Effect.$]: running a shell command *)

(** The settled [child.output()]: the exit code and the bytes of both
    streams. *)
Record CommandOutput := { code : Z; cmd_stdout : bytes; cmd_stderr : bytes }.

Section Shell.
Local Open Scope Z_scope.

(** The code units [String.prototype.trim] removes: WhiteSpace (TAB, VT,
    FF, ZWNBSP U+FEFF, and the space separators U+0020, U+00A0, U+1680,
    U+2000 to U+200A, U+202F, U+205F, U+3000) and LineTerminator (LF,
    CR, U+2028, U+2029). *)
Definition is_trim_space (c : Z) : bool :=
  (c =? 9) || (c =? 10) || (c =? 11) || (c =? 12) || (c =? 13) || (c =? 0x20) || (c =? 0xA0)
  || (c =? 0x1680) || ((0x2000 <=? c) && (c <=? 0x200A)) || (c =? 0x2028) || (c =? 0x2029)
  || (c =? 0x202F) || (c =? 0x205F) || (c =? 0x3000) || (c =? 0xFEFF).

(** [line.trim()] is a non-empty (truthy) string. *)
Definition trim_nonempty (line : utf16) : bool := negb (forallb is_trim_space line).

(** [s.split("\n")]. *)
Fixpoint split_lines (s : utf16) : list utf16 :=
  match s with
  | [] => [[]]
  | c :: r =>
      if c =? 10 then [] :: split_lines r
      else match split_lines r with
           | [] => [[c]]
           | l :: ls => (c :: l) :: ls
           end
  end.

(** [async $(script)] once the command has completed with [output]: the
    log records it writes, and how its promise settles ([inl]: rejected
    with the error, [inr]: resolved with the text of stdout).  Both
    streams go through [new TextDecoder().decode]. *)
Definition dollar (output : CommandOutput) : list log_entry * (js_error utf16 + utf16) :=
  let stdout := text_decode (cmd_stdout output) in
  let stderr := text_decode (cmd_stderr output) in
  if negb (code output =? 0) then
    ([{| level := "error";
         message := units ("Command failed with exit code " ++ z_text (code output) ++ ": ")%string
                    ++ stderr |}],
     inl {| error_name := "Error"; error_message := stderr |})
  else
    (map (fun line => {| level := "debug"; message := line |})
         (filter trim_nonempty (split_lines stdout)),
     inr stdout).
End Shell.

(** A command that prints [partial], writes [boom] on stderr and exits
    with status 2 (ASCII text: its UTF-8 bytes are its code units). *)
Definition shell_boom : CommandOutput :=
  {| code := 2; cmd_stdout := units "partial"; cmd_stderr := units "boom" |}.

(** A [part_004] registry holding one task, [echo]. *)
Definition echo_tasks : registry TaskFn := set_prop empty_registry "echo"%string (fun v => v).

(* ================================================================== *)
(** * Proofs *)

(** ** Character-level facts about the JSON text *)

Lemma lex_escape_char c tail :
  lex_string_body (escape_char c ++ tail) =
  match lex_string_body tail with Some (cs, r) => Some (c :: cs, r) | None => None end.
Proof.
  destruct c as [[] [] [] [] [] [] [] []]; reflexivity.
Qed.

Lemma lex_quoted cs rest :
  lex_string_body (flat_map escape_char cs ++ quote_mark :: rest) = Some (cs, rest).
Proof.
  induction cs as [|c cs IH]; [reflexivity|].
  simpl flat_map. rewrite <- app_assoc, lex_escape_char, IH. reflexivity.
Qed.

Lemma num_step_char st c st' : num_step st c = Some st' -> is_number_char c = true.
Proof.
  destruct st, c as [[] [] [] [] [] [] [] []]; vm_compute; congruence.
Qed.

Lemma num_run_chars l : forall st st', num_run st l = Some st' -> forallb is_number_char l = true.
Proof.
  induction l as [|c l IH]; intros st st' H; [reflexivity|].
  simpl in H. destruct (num_step st c) as [st1|] eqn:E; [|discriminate].
  simpl. rewrite (num_step_char _ _ _ E). exact (IH _ _ H).
Qed.

Lemma lexeme_chars l : json_number_lexeme l = true -> forallb is_number_char l = true.
Proof.
  unfold json_number_lexeme. destruct (num_run NStart l) eqn:E; [|discriminate].
  intros _. exact (num_run_chars _ _ _ E).
Qed.

(** A number literal starts with [-] or a digit. *)
Lemma lexeme_head l :
  json_number_lexeme l = true ->
  exists c r, l = c :: r /\ (Nat.eqb (nat_of_ascii c) 45 || is_digit c) = true.
Proof.
  destruct l as [|c r]; [discriminate|]. intros H. exists c, r. split; [reflexivity|].
  revert H. unfold json_number_lexeme. cbn [num_run].
  destruct (num_step NStart c) as [st|] eqn:E; [|intros Hf; discriminate Hf].
  intros _.
  revert E. clear. destruct c as [[] [] [] [] [] [] [] []]; vm_compute; congruence.
Qed.

Definition rest_ok (rest : list ascii) : Prop :=
  match rest with [] => True | c :: _ => is_number_char c = false end.

Lemma span_number_app l rest :
  forallb is_number_char l = true -> rest_ok rest -> span_number (l ++ rest) = (l, rest).
Proof.
  induction l as [|c l IH]; simpl; intros H R.
  - destruct rest as [|c rest]; [reflexivity|]. simpl in R. simpl. rewrite R. reflexivity.
  - apply andb_prop in H as [Hc Hl]. rewrite Hc, (IH Hl R). reflexivity.
Qed.

Lemma skip_ws_app w s : forallb is_json_ws w = true -> skip_ws (w ++ s) = skip_ws s.
Proof.
  induction w as [|c w IH]; simpl; intros H; [reflexivity|].
  apply andb_prop in H as [Hc Hw]. rewrite Hc. exact (IH Hw).
Qed.

Lemma skip_ws_stop c s : is_json_ws c = false -> skip_ws (c :: s) = c :: s.
Proof. simpl. intros ->. reflexivity. Qed.

Lemma skip_ws_idem s : skip_ws (skip_ws s) = skip_ws s.
Proof.
  induction s as [|c s IH]; [reflexivity|]. simpl.
  destruct (is_json_ws c) eqn:E; [exact IH|]. simpl. rewrite E. reflexivity.
Qed.

Section ParseFacts.
Context `{NumberConversions}.

Lemma parse_value_ws f w s :
  forallb is_json_ws w = true -> parse_value f (w ++ s) = parse_value f s.
Proof. intros Hw. destruct f; [reflexivity|]. simpl. rewrite (skip_ws_app _ _ Hw). reflexivity. Qed.

Lemma parse_value_skip f s : parse_value f (skip_ws s) = parse_value f s.
Proof. destruct f; [reflexivity|]. simpl. rewrite skip_ws_idem. reflexivity. Qed.

Lemma parse_elements_ws f w s acc :
  forallb is_json_ws w = true -> parse_elements f (w ++ s) acc = parse_elements f s acc.
Proof. intros Hw. destruct f; [reflexivity|]. simpl. rewrite (parse_value_ws _ _ _ Hw). reflexivity. Qed.

Lemma parse_members_ws f w s acc :
  forallb is_json_ws w = true -> parse_members f (w ++ s) acc = parse_members f s acc.
Proof. intros Hw. destruct f; [reflexivity|]. simpl. rewrite (skip_ws_app _ _ Hw). reflexivity. Qed.
End ParseFacts.

(** ** Property order: defining the properties of a well-formed object
    one after the other rebuilds it. *)

Lemma has_key_app ps qs k : has_key (ps ++ qs) k = has_key ps k || has_key qs k.
Proof. unfold has_key. apply existsb_app. Qed.

Lemma distinct_prefix_no_key pre k v post :
  keys_distinct (pre ++ (k, v) :: post) = true -> has_key pre k = false.
Proof.
  induction pre as [|[k' v'] pre IH]; simpl; intros H; [reflexivity|].
  apply andb_prop in H as [Hn Hd].
  rewrite has_key_app in Hn. simpl in Hn.
  destruct (String.eqb k' k) eqn:E.
  - apply String.eqb_eq in E. subst. rewrite String.eqb_refl in Hn.
    rewrite orb_true_r in Hn. discriminate.
  - simpl. exact (IH Hd).
Qed.

Lemma insert_index_key_last pre k v post :
  is_array_index k = true ->
  keys_in_order (pre ++ (k, v) :: post) = true ->
  insert_index_key pre k v = pre ++ [(k, v)].
Proof.
  intros Hk. induction pre as [|[k' v'] pre IH]; simpl; intros H; [reflexivity|].
  apply andb_prop in H as [Hf Ho].
  destruct (is_array_index k') eqn:Ek'.
  - rewrite forallb_app in Hf. apply andb_prop in Hf as [_ Hf]. simpl in Hf.
    rewrite Hk in Hf. simpl in Hf. apply andb_prop in Hf as [Hlt _].
    simpl. rewrite Hlt. rewrite (IH Ho). reflexivity.
  - rewrite forallb_app in Hf. apply andb_prop in Hf as [_ Hf]. simpl in Hf.
    rewrite Hk in Hf. discriminate.
Qed.

Lemma create_data_property_last pre k v post :
  keys_distinct (pre ++ (k, v) :: post) = true ->
  keys_in_order (pre ++ (k, v) :: post) = true ->
  create_data_property pre k v = pre ++ [(k, v)].
Proof.
  intros Hd Ho. unfold create_data_property.
  rewrite (distinct_prefix_no_key _ _ _ _ Hd).
  destruct (is_array_index k) eqn:Ek; [|reflexivity].
  exact (insert_index_key_last _ _ _ _ Ek Ho).
Qed.

(** ** Unfolding the parser one step *)

Lemma number_head_facts c :
  (Nat.eqb (nat_of_ascii c) 45 || is_digit c) = true ->
  is_json_ws c = false /\ nat_of_ascii c <> 93 /\ nat_of_ascii c <> 125.
Proof. destruct c as [[] [] [] [] [] [] [] []]; vm_compute; intuition congruence. Qed.

Definition head_ok (t : list ascii) : Prop :=
  match t with
  | c :: _ => is_json_ws c = false /\ nat_of_ascii c <> 93 /\ nat_of_ascii c <> 125
  | [] => False
  end.

Lemma ws_not_number c : is_json_ws c = true -> is_number_char c = false.
Proof. destruct c as [[] [] [] [] [] [] [] []]; vm_compute; congruence. Qed.

Lemma rest_ok_ws w c r :
  forallb is_json_ws w = true -> is_number_char c = false -> rest_ok (w ++ c :: r).
Proof.
  destruct w as [|d w]; simpl; [tauto|]. intros H _.
  apply andb_prop in H as [H _]. exact (ws_not_number _ H).
Qed.

Section ParseSteps.
Context `{NumberConversions}.

Lemma parse_elements_S f s acc :
  parse_elements (S f) s acc =
  match parse_value f s with
  | Some (v, r) =>
      match skip_ws r with
      | c :: r' =>
          if Nat.eqb (nat_of_ascii c) 44 then parse_elements f r' (acc ++ [v])
          else if Nat.eqb (nat_of_ascii c) 93 then Some (JArray (acc ++ [v]), r')
          else None
      | [] => None
      end
  | None => None
  end.
Proof. reflexivity. Qed.

Lemma parse_members_S f s acc :
  parse_members (S f) s acc =
  match skip_ws s with
  | c :: r =>
    if Nat.eqb (nat_of_ascii c) 34 then
      match lex_string_body r with
      | Some (kcs, r1) =>
          match skip_ws r1 with
          | c1 :: r2 =>
              if Nat.eqb (nat_of_ascii c1) 58 then
                match parse_value f r2 with
                | Some (v, r3) =>
                    let acc' := create_data_property acc (string_of_list_ascii kcs) v in
                    match skip_ws r3 with
                    | c2 :: r4 =>
                        if Nat.eqb (nat_of_ascii c2) 44 then parse_members f r4 acc'
                        else if Nat.eqb (nat_of_ascii c2) 125 then Some (JObject acc', r4)
                        else None
                    | [] => None
                    end
                | None => None
                end
              else None
          | [] => None
          end
      | None => None
      end
    else None
  | [] => None
  end.
Proof. reflexivity. Qed.

Lemma parse_value_array f s :
  parse_value (S f) ("["%char :: s) =
  match skip_ws s with
  | c' :: r' => if Nat.eqb (nat_of_ascii c') 93 then Some (JArray [], r')
                else parse_elements f (c' :: r') []
  | [] => None
  end.
Proof. reflexivity. Qed.

Lemma parse_value_object f s :
  parse_value (S f) ("{"%char :: s) =
  match skip_ws s with
  | c' :: r' => if Nat.eqb (nat_of_ascii c') 125 then Some (JObject [], r')
                else parse_members f (c' :: r') []
  | [] => None
  end.
Proof. reflexivity. Qed.

Lemma parse_value_string f s :
  parse_value (S f) (quote_mark :: s) =
  match lex_string_body s with
  | Some (cs, r') => Some (JString (string_of_list_ascii cs), r')
  | None => None
  end.
Proof. reflexivity. Qed.

Lemma parse_value_number f c s :
  (Nat.eqb (nat_of_ascii c) 45 || is_digit c) = true ->
  parse_value (S f) (c :: s) =
  let (lexeme, r') := span_number (c :: s) in
  if json_number_lexeme lexeme then Some (JNumber (string_to_number lexeme), r')
  else None.
Proof. destruct c as [[] [] [] [] [] [] [] []]; intros Hc; try discriminate Hc; reflexivity. Qed.
End ParseSteps.

(** ** Bracketed layouts parse back element by element *)

Lemma layout_shape o c gap stepback partial :
  partial <> [] -> forallb is_json_ws gap = true -> forallb is_json_ws stepback = true ->
  exists w0 w1 w2,
    forallb is_json_ws w0 = true /\ forallb is_json_ws w1 = true /\
    forallb is_json_ws w2 = true /\
    layout o c gap stepback partial = o :: w0 ++ join (","%char :: w1) partial ++ w2 ++ [c].
Proof.
  intros Hne Hg Hs. destruct partial as [|p ps]; [congruence|]. unfold layout.
  destruct (length gap =? 0)%nat.
  - exists [], [], []. repeat split; reflexivity.
  - exists ("010"%char :: stepback ++ gap), ("010"%char :: stepback ++ gap),
      ("010"%char :: stepback).
    repeat split; simpl; rewrite ?forallb_app, ?Hg, ?Hs; reflexivity.
Qed.

Definition fuel_of (xs : list jsval) : nat := fold_right (fun x n => S (jsize x) + n) 0 xs.

Definition props_fuel (ps : list (string * jsval)) : nat :=
  fold_right (fun p n => S (jsize (snd p)) + n) 0 ps.

Definition member_text (gap : list ascii) (k : string) (t : list ascii) : list ascii :=
  quote_json_string k ++ ":"%char :: (if (length gap =? 0)%nat then [] else [" "%char]) ++ t.

Section Layouts.
Context `{NumberConversions}.

(** A value's text [t] parses back to it in any context that does not
    continue a number literal, and needs no more fuel than it has
    characters. *)
Definition parses_back (x : jsval) (t : list ascii) : Prop :=
  head_ok t /\ jsize x <= length t /\
  forall fuel rest, jsize x <= fuel -> rest_ok rest -> parse_value fuel (t ++ rest) = Some (x, rest).

Lemma parse_elements_join w1 w2 rest :
  forallb is_json_ws w1 = true -> forallb is_json_ws w2 = true ->
  forall items acc f,
    items <> [] ->
    Forall (fun it => parses_back (fst it) (snd it)) items ->
    fuel_of (map fst items) <= f ->
    parse_elements f (join (","%char :: w1) (map snd items) ++ w2 ++ "]"%char :: rest) acc
    = Some (JArray (acc ++ map fst items), rest).
Proof.
  intros Hw1 Hw2. induction items as [|[x t] items IH]; intros acc f Hne HF Hf;
    [congruence|].
  inversion HF as [|? ? [Hh [Hl Hp]] HF']; subst. cbn [fst snd] in Hh, Hl, Hp. simpl in Hf.
  destruct f as [|f]; [lia|]. rewrite parse_elements_S.
  destruct items as [|it2 items'].
  - simpl. rewrite (Hp f (w2 ++ "]"%char :: rest)); [| lia | apply rest_ok_ws; auto].
    rewrite (skip_ws_app _ _ Hw2). simpl. reflexivity.
  - simpl map. cbn [join]. rewrite <- !app_assoc. simpl.
    rewrite (Hp f); [| lia | reflexivity]. simpl.
    rewrite (parse_elements_ws _ _ _ _ Hw1).
    assert (E := IH (acc ++ [x]) f ltac:(congruence) HF' ltac:(simpl in Hf |- *; lia)).
    rewrite <- !app_assoc in E. simpl in E |- *. rewrite E. reflexivity.
Qed.
Lemma parse_members_join gap w1 w2 rest :
  forallb is_json_ws w1 = true -> forallb is_json_ws w2 = true ->
  forall items pre f,
    items <> [] ->
    keys_distinct (pre ++ map fst items) = true ->
    keys_in_order (pre ++ map fst items) = true ->
    Forall (fun it => parses_back (snd (fst it)) (snd it)) items ->
    props_fuel (map fst items) <= f ->
    parse_members f
      (join (","%char :: w1) (map (fun it => member_text gap (fst (fst it)) (snd it)) items)
         ++ w2 ++ "}"%char :: rest) pre
    = Some (JObject (pre ++ map fst items), rest).
Proof.
  intros Hw1 Hw2. induction items as [|[[k x] t] items IH]; intros pre f Hne Hd Ho HF Hf;
    [congruence|].
  inversion HF as [|? ? [Hh [Hl Hp]] HF']; subst. cbn [fst snd] in Hh, Hl, Hp. simpl in Hf.
  destruct f as [|f]; [lia|]. rewrite parse_members_S.
  set (sp := if (length gap =? 0)%nat then [] else [" "%char]).
  assert (Hsp : forallb is_json_ws sp = true)
    by (unfold sp; destruct (length gap =? 0)%nat; reflexivity).
  set (tail := match items with
               | [] => w2 ++ "}"%char :: rest
               | _ => ","%char :: w1 ++ join (","%char :: w1)
                        (map (fun it => member_text gap (fst (fst it)) (snd it)) items)
                        ++ w2 ++ "}"%char :: rest
               end).
  assert (Htext :
    join (","%char :: w1) (map (fun it => member_text gap (fst (fst it)) (snd it))
                               (((k, x), t) :: items)) ++ w2 ++ "}"%char :: rest
    = quote_mark :: flat_map escape_char (lit k) ++ quote_mark :: ":"%char :: sp ++ t ++ tail).
  { unfold tail. destruct items as [|it2 items']; simpl map; cbn [join];
      unfold member_text, quote_json_string; fold sp;
      simpl; rewrite <- ?app_assoc; simpl; rewrite <- ?app_assoc; reflexivity. }
  rewrite Htext. clear Htext.
  assert (Hq : is_json_ws quote_mark = false) by reflexivity.
  rewrite (skip_ws_stop _ _ Hq). cbn [nat_of_ascii quote_mark Nat.eqb].
  change (Nat.eqb (nat_of_ascii quote_mark) 34) with true. cbv iota beta.
  rewrite lex_quoted. simpl skip_ws. change (Nat.eqb (nat_of_ascii ":"%char) 58) with true.
  cbv iota beta. rewrite (parse_value_ws _ _ _ Hsp).
  assert (Hrest : rest_ok tail)
    by (unfold tail; destruct items; [apply rest_ok_ws; auto | reflexivity]).
  rewrite (Hp f tail); [| lia | exact Hrest].
  rewrite string_of_list_ascii_of_string.
  simpl map in Hd, Ho.
  rewrite (create_data_property_last pre k x (map fst items) Hd Ho).
  unfold tail. destruct items as [|it2 items'].
  - rewrite (skip_ws_app _ _ Hw2). simpl. reflexivity.
  - simpl skip_ws. change (Nat.eqb (nat_of_ascii ","%char) 44) with true. cbv iota beta.
    rewrite (parse_members_ws _ _ _ _ Hw1).
    assert (E := IH (pre ++ [(k, x)]) f ltac:(congruence)).
    rewrite <- !app_assoc in E. simpl in E.
    rewrite (E Hd Ho HF' ltac:(simpl in Hf |- *; lia)). reflexivity.
Qed.
End Layouts.

(** ** Sizes and the texts of the parts *)

Lemma join_length (a : ascii) w parts :
  parts <> [] ->
  fold_right (fun p n => S (length p) + n) 0 parts <= S (length (join (a :: w) parts)).
Proof.
  induction parts as [|p ps IH]; intros Hne; [congruence|].
  destruct ps as [|q ps]; [simpl; lia|].
  specialize (IH ltac:(congruence)).
  change (join (a :: w) (p :: q :: ps)) with (p ++ (a :: w) ++ join (a :: w) (q :: ps)).
  change (fold_right (fun p n => S (length p) + n) 0 (p :: q :: ps))
    with (S (length p) + fold_right (fun p n => S (length p) + n) 0 (q :: ps)).
  rewrite !length_app. cbn [length]. lia.
Qed.

Lemma join_app_head sep p ps (X : list ascii) : exists Y, join sep (p :: ps) ++ X = p ++ Y.
Proof.
  destruct ps as [|q ps]; simpl.
  - exists X. reflexivity.
  - exists (sep ++ join sep (q :: ps) ++ X). rewrite <- !app_assoc. reflexivity.
Qed.

Lemma fuel_of_le (items : list (jsval * list ascii)) :
  Forall (fun it => jsize (fst it) <= length (snd it)) items ->
  fuel_of (map fst items) <= fold_right (fun p n => S (length p) + n) 0 (map snd items).
Proof. unfold fuel_of. induction 1; simpl in *; lia. Qed.

Lemma props_fuel_le gap (items : list ((string * jsval) * list ascii)) :
  Forall (fun it => jsize (snd (fst it)) <= length (snd it)) items ->
  props_fuel (map fst items)
  <= fold_right (fun p n => S (length p) + n) 0
       (map (fun it => member_text gap (fst (fst it)) (snd it)) items).
Proof.
  unfold props_fuel. induction 1 as [|it items Hit _ IH]; cbn [map fold_right] in *; [lia|].
  assert (length (snd it) <= length (member_text gap (fst (fst it)) (snd it))).
  { unfold member_text. rewrite !length_app. cbn [length]. rewrite !length_app. lia. }
  lia.
Qed.

Lemma items_of {B : Type} (g : jsval -> option B) (Q : jsval -> B -> Prop) (d : B) xs :
  Forall (fun x => exists t, g x = Some t /\ Q x t) xs ->
  exists items : list (jsval * B),
    map fst items = xs /\
    map (fun x => match g x with Some t => t | None => d end) xs = map snd items /\
    Forall (fun it => Q (fst it) (snd it)) items.
Proof.
  induction 1 as [|x xs [t [Hg HQ]] _ [items [H1 [H2 H3]]]].
  - exists []. repeat split; constructor.
  - exists ((x, t) :: items). simpl. rewrite Hg, H1, H2. repeat split; auto.
Qed.

Lemma items_of_props (g : jsval -> option (list ascii)) (Q : jsval -> list ascii -> Prop)
    (mk : string -> list ascii -> list ascii) ps :
  Forall (fun p => exists t, g (snd p) = Some t /\ Q (snd p) t) ps ->
  exists items : list ((string * jsval) * list ascii),
    map fst items = ps /\
    flat_map (fun '(k, e) => match g e with Some t => [mk k t] | None => [] end) ps
    = map (fun it => mk (fst (fst it)) (snd it)) items /\
    Forall (fun it => Q (snd (fst it)) (snd it)) items.
Proof.
  induction 1 as [|[k x] ps [t [Hg HQ]] _ [items [H1 [H2 H3]]]].
  - exists []. repeat split; constructor.
  - exists (((k, x), t) :: items). simpl in *. rewrite Hg, H1, H2. repeat split; auto.
Qed.

Lemma head_ok_cons c X :
  is_json_ws c = false -> Nat.eqb (nat_of_ascii c) 93 = false ->
  Nat.eqb (nat_of_ascii c) 125 = false -> head_ok (c :: X).
Proof.
  intros H1 H2 H3. simpl. apply Nat.eqb_neq in H2, H3. auto.
Qed.

Lemma member_text_head gap k t : exists M, member_text gap k t = quote_mark :: M.
Proof. eexists. reflexivity. Qed.

(** ** Serialized values parse back *)

Section RoundTrip.
Context `{NumberConversions}.
Variable gap : list ascii.
Hypothesis Hgap : forallb is_json_ws gap = true.

Lemma serialize_parses_back v :
  json_clean v = true -> numbers_round_trip v ->
  forall indent, forallb is_json_ws indent = true ->
  exists t, serialize gap indent v = Some t /\ parses_back v t.
Proof.
  induction v as [| |b|x|s|xs IH|ps IH] using jsval_ind'; intros Hc Hn indent Hi;
    simpl in Hc.
  - discriminate.
  - exists (lit "null"). split; [reflexivity|].
    split; [apply head_ok_cons; reflexivity|]. split; [simpl; lia|].
    intros [|f] rest Hf Hr; [simpl in Hf; lia|reflexivity].
  - destruct b; [exists (lit "true") | exists (lit "false")]; (split; [reflexivity|]);
      (split; [apply head_ok_cons; reflexivity|]); (split; [simpl; lia|]);
      intros [|f] rest Hf Hr; (simpl in Hf; lia) || reflexivity.
  - destruct (Hn x (or_introl eq_refl)) as [Hlex Hrt].
    exists (number_to_string x). split; [simpl; rewrite Hc; reflexivity|].
    destruct (lexeme_head _ Hlex) as (c & r & Ht & Hcd).
    split; [rewrite Ht; exact (number_head_facts c Hcd)|].
    split; [rewrite Ht; simpl; lia|].
    intros [|f] rest Hf Hr; [simpl in Hf; lia|].
    rewrite Ht, <- app_comm_cons, (parse_value_number f c (r ++ rest) Hcd).
    rewrite app_comm_cons, <- Ht, (span_number_app _ _ (lexeme_chars _ Hlex) Hr).
    cbv iota beta. rewrite Hlex, Hrt. reflexivity.
  - exists (quote_json_string s). split; [reflexivity|].
    split; [apply head_ok_cons; reflexivity|].
    split; [unfold quote_json_string; simpl; lia|].
    intros [|f] rest Hf Hr; [simpl in Hf; lia|].
    unfold quote_json_string. rewrite <- app_comm_cons, <- app_assoc. cbn [app].
    rewrite parse_value_string, lex_quoted, string_of_list_ascii_of_string. reflexivity.
  - assert (Hall : Forall (fun x => exists t, serialize gap (indent ++ gap) x = Some t
                                             /\ parses_back x t) xs).
    { rewrite Forall_forall in IH |- *. intros x Hx. apply IH; [exact Hx | | |].
      - exact (proj1 (forallb_forall _ _) Hc x Hx).
      - intros y Hy. apply Hn. simpl. apply in_flat_map. eauto.
      - rewrite forallb_app, Hi, Hgap. reflexivity. }
    destruct (items_of (serialize gap (indent ++ gap)) parses_back (lit "null") xs Hall)
      as (items & Hfst & Hmap & HQ).
    assert (Hs : serialize gap indent (JArray xs)
                 = Some (layout "["%char "]"%char gap indent (map snd items)))
      by (cbn [serialize]; rewrite <- Hmap; reflexivity).
    rewrite Hs. clear Hs Hmap Hall IH. subst xs.
    destruct items as [|[x0 t0] items'].
    + eexists. split; [reflexivity|]. split; [apply head_ok_cons; reflexivity|].
      split; [simpl; lia|]. intros [|f] rest Hf Hr; [simpl in Hf; lia|reflexivity].
    + set (items := (x0, t0) :: items') in *.
      destruct (layout_shape "["%char "]"%char gap indent (map snd items))
        as (w0 & w1 & w2 & Hw0 & Hw1 & Hw2 & Hlay); [simpl; congruence|exact Hgap|exact Hi|].
      eexists. split; [reflexivity|]. rewrite Hlay.
      assert (HQ' : Forall (fun it => jsize (fst it) <= length (snd it)) items)
        by (eapply Forall_impl; [|exact HQ]; intros it [_ [Hl _]]; exact Hl).
      pose proof (fuel_of_le items HQ') as Hfl.
      pose proof (join_length ","%char w1 (map snd items) ltac:(simpl; congruence)) as Hjl.
      unfold parses_back.
      change (jsize (JArray (map fst items))) with (S (fuel_of (map fst items))).
      split; [apply head_ok_cons; reflexivity|].
      split; [cbn [length]; rewrite !length_app; cbn [length]; lia|].
      intros [|f] rest Hf Hr; [lia|].
      assert (E : ("["%char :: w0 ++ join (","%char :: w1) (map snd items) ++ w2 ++ ["]"%char])
                    ++ rest
                  = "["%char :: w0 ++ join (","%char :: w1) (map snd items) ++ w2
                      ++ "]"%char :: rest)
        by (simpl; rewrite <- !app_assoc; reflexivity).
      rewrite E, parse_value_array, (skip_ws_app _ _ Hw0). clear E.
      destruct (join_app_head (","%char :: w1) t0 (map snd items') (w2 ++ "]"%char :: rest))
        as [Y HY].
      change (map snd items) with (t0 :: map snd items'). rewrite HY.
      pose proof (Forall_inv HQ) as [Hh _]. cbn [fst snd] in Hh.
      destruct t0 as [|c t0']; [destruct Hh|]. destruct Hh as (Hc1 & Hc2 & Hc3).
      rewrite <- app_comm_cons, (skip_ws_stop _ _ Hc1).
      apply Nat.eqb_neq in Hc2. rewrite Hc2.
      rewrite app_comm_cons, <- HY.
      exact (parse_elements_join w1 w2 rest Hw1 Hw2 items [] f ltac:(discriminate) HQ
               ltac:(lia)).
  - apply andb_prop in Hc as [Hc Hcl]. apply andb_prop in Hc as [Hd Ho].
    assert (Hall : Forall (fun p => exists t, serialize gap (indent ++ gap) (snd p) = Some t
                                             /\ parses_back (snd p) t) ps).
    { rewrite Forall_forall in IH |- *. intros p Hp. apply IH; [exact Hp | | |].
      - exact (proj1 (forallb_forall _ _) Hcl p Hp).
      - intros y Hy. apply Hn. simpl. apply in_flat_map. eauto.
      - rewrite forallb_app, Hi, Hgap. reflexivity. }
    destruct (items_of_props (serialize gap (indent ++ gap)) parses_back (member_text gap)
                ps Hall) as (items & Hfst & Hfm & HQ).
    assert (Hs : serialize gap indent (JObject ps)
                 = Some (layout "{"%char "}"%char gap indent
                           (map (fun it => member_text gap (fst (fst it)) (snd it)) items)))
      by (cbn [serialize]; rewrite <- Hfm; reflexivity).
    rewrite Hs. clear Hs Hfm Hall IH Hcl. subst ps.
    destruct items as [|[[k0 x0] t0] items'].
    + eexists. split; [reflexivity|]. split; [apply head_ok_cons; reflexivity|].
      split; [simpl; lia|]. intros [|f] rest Hf Hr; [simpl in Hf; lia|reflexivity].
    + set (items := ((k0, x0), t0) :: items') in *.
      set (parts := map (fun it => member_text gap (fst (fst it)) (snd it)) items).
      destruct (layout_shape "{"%char "}"%char gap indent parts)
        as (w0 & w1 & w2 & Hw0 & Hw1 & Hw2 & Hlay); [discriminate|exact Hgap|exact Hi|].
      eexists. split; [reflexivity|]. rewrite Hlay.
      assert (HQ' : Forall (fun it => jsize (snd (fst it)) <= length (snd it)) items)
        by (eapply Forall_impl; [|exact HQ]; intros it [_ [Hl _]]; exact Hl).
      pose proof (props_fuel_le gap items HQ') as Hfl.
      pose proof (join_length ","%char w1 parts ltac:(discriminate)) as Hjl.
      unfold parses_back.
      change (jsize (JObject (map fst items))) with (S (props_fuel (map fst items))).
      split; [apply head_ok_cons; reflexivity|].
      split; [cbn [length]; rewrite !length_app; cbn [length]; fold parts in Hfl; lia|].
      intros [|f] rest Hf Hr; [lia|].
      assert (E : ("{"%char :: w0 ++ join (","%char :: w1) parts ++ w2 ++ ["}"%char])
                    ++ rest
                  = "{"%char :: w0 ++ join (","%char :: w1) parts ++ w2
                      ++ "}"%char :: rest)
        by (simpl; rewrite <- !app_assoc; reflexivity).
      rewrite E, parse_value_object, (skip_ws_app _ _ Hw0). clear E.
      set (m0 := member_text gap k0 t0).
      destruct (join_app_head (","%char :: w1) m0
                  (map (fun it => member_text gap (fst (fst it)) (snd it)) items')
                  (w2 ++ "}"%char :: rest)) as [Y HY].
      change parts with (m0 :: map (fun it => member_text gap (fst (fst it)) (snd it)) items').
      rewrite HY.
      destruct (member_text_head gap k0 t0) as [M HM]. fold m0 in HM. rewrite HM.
      rewrite <- app_comm_cons, (skip_ws_stop _ _ (eq_refl : is_json_ws quote_mark = false)).
      change (Nat.eqb (nat_of_ascii quote_mark) 125) with false. cbv iota beta.
      rewrite app_comm_cons, <- HM, <- HY.
      exact (parse_members_join gap w1 w2 rest Hw1 Hw2 items [] f ltac:(discriminate)
               Hd Ho HQ ltac:(lia)).
Qed.
End RoundTrip.

Section JsonRoundTrip.
Context `{NumberConversions}.

Lemma json_codec_round_trip v :
  json_clean v = true -> numbers_round_trip v ->
  json_decode_encoded (json_encode v) = Some v.
Proof.
  intros Hc Hn.
  destruct (serialize_parses_back (repeat " "%char 2) eq_refl v Hc Hn [] eq_refl)
    as (t & Hs & _ & Hl & Hp).
  unfold json_decode_encoded, json_encode, json_stringify, json_decode, json_parse.
  cbn [Nat.min repeat]. cbn [Nat.min repeat] in Hs. rewrite Hs. cbn [option_map].
  rewrite list_ascii_of_string_of_list_ascii.
  pose proof (Hp (S (2 * length t)) [] ltac:(lia) I) as E. rewrite app_nil_r in E.
  rewrite E. reflexivity.
Qed.
End JsonRoundTrip.

(* ================================================================== *)
(** * Claims *)

(** ** Codecs *)




(** ** Running the event loop *)

Section Steps.
Variable env : op -> jsval.

Lemma run_emit f sched e k stk pend tr :
  run (S f) env sched (mkMachine (Some (PEmit e k)) stk pend tr)
  = run f env sched (mkMachine (Some k) stk pend (tr ++ [e])).
Proof. reflexivity. Qed.

Lemma run_await f sched o k stk pend tr :
  run (S f) env sched (mkMachine (Some (PAwait o k)) stk pend tr)
  = run f env sched (mkMachine (hd_error stk) (tl stk) (pend ++ [(o, k)]) (tr ++ [EBegin o])).
Proof. reflexivity. Qed.

Lemma run_call f sched p k stk pend tr :
  run (S f) env sched (mkMachine (Some (PCall p k)) stk pend tr)
  = run f env sched (mkMachine (Some p) (k :: stk) pend tr).
Proof. reflexivity. Qed.

Lemma run_done f sched stk pend tr :
  run (S f) env sched (mkMachine (Some PDone) stk pend tr)
  = run f env sched (mkMachine (hd_error stk) (tl stk) pend tr).
Proof. reflexivity. Qed.

Lemma run_settle_one f sched o k tr :
  run (S f) env sched (mkMachine None [] [(o, k)] tr)
  = run f env (tl sched) (mkMachine (Some (k (env o))) [] [] (tr ++ [EEnd o (env o)])).
Proof. reflexivity. Qed.

Lemma run_settle f sched stk pend tr o k rest :
  pick (hd 0 sched) pend = Some ((o, k), rest) ->
  run (S f) env sched (mkMachine None stk pend tr)
  = run f env (tl sched) (mkMachine (Some (k (env o))) stk rest (tr ++ [EEnd o (env o)])).
Proof. intros E. simpl. rewrite E. reflexivity. Qed.

Lemma run_idle f sched stk pend tr :
  pick (hd 0 sched) pend = None ->
  run (S f) env sched (mkMachine None stk pend tr) = mkMachine None stk pend tr.
Proof. intros E. simpl. rewrite E. reflexivity. Qed.

Lemma run_stopped f sched tr : run f env sched (mkMachine None [] [] tr) = mkMachine None [] [] tr.
Proof. destruct f; reflexivity. Qed.
End Steps.

Ltac run_step :=
  first [ rewrite run_emit | rewrite run_await | rewrite run_call | rewrite run_done
        | rewrite run_settle_one ];
  cbn [hd_error tl app]; cbv beta.

Lemma pick_Forall {A} (P : A -> Prop) i l x rest :
  pick i l = Some (x, rest) -> Forall P l -> P x /\ Forall P rest.
Proof.
  revert i x rest. induction l as [|y l IH]; intros i x rest E HF; [discriminate|].
  inversion HF as [|? ? Hy HF']; subst.
  destruct l as [|z l].
  - cbn [pick] in E. injection E as <- <-. auto.
  - destruct i as [|j].
    + cbn [pick] in E. injection E as <- <-. auto.
    + change (pick (S j) (y :: z :: l)) with
        (match pick j (z :: l) with Some (w, r) => Some (w, y :: r) | None => None end) in E.
      destruct (pick j (z :: l)) as [[w r]|] eqn:E'; [|congruence].
      injection E as <- <-. destruct (IH j w r E' HF') as [Hw Hr]. auto.
Qed.

(** Whatever the scheduler does, a machine whose processes only emit
    events accepted by [Q] only appends such events to its trace. *)
Lemma run_only Q fuel : forall env sched m,
  machine_only Q m ->
  exists post, trace (run fuel env sched m) = trace m ++ post /\ forallb Q post = true.
Proof.
  induction fuel as [|f IH]; intros env sched [c stk pend tr] [Hc [Hs Hp]];
    cbn [cur stack pending trace] in *.
  - exists []. rewrite app_nil_r. auto.
  - destruct c as [p|].
    + destruct p as [|e k|o k|p k].
      * rewrite run_done.
        destruct (IH env sched (mkMachine (hd_error stk) (tl stk) pend tr)) as [post [E HQ]].
        { repeat split; cbn [cur stack pending]; auto.
          - destruct stk; [exact I|]. inversion Hs; auto.
          - destruct stk; [constructor|]. inversion Hs; auto. }
        exists post. auto.
      * inversion Hc as [| ? ? He Hk | |]; subst. rewrite run_emit.
        destruct (IH env sched (mkMachine (Some k) stk pend (tr ++ [e]))) as [post [E HQ]].
        { repeat split; auto. }
        exists (e :: post). rewrite E. cbn [trace]. rewrite <- app_assoc. simpl. rewrite He. auto.
      * inversion Hc as [| | ? ? Hb He Hk |]; subst. rewrite run_await.
        destruct (IH env sched (mkMachine (hd_error stk) (tl stk) (pend ++ [(o, k)])
                                  (tr ++ [EBegin o]))) as [post [E HQ]].
        { repeat split; cbn [cur stack pending].
          - destruct stk; [exact I|]. inversion Hs; auto.
          - destruct stk; [constructor|]. inversion Hs; auto.
          - apply Forall_app. split; auto. }
        exists (EBegin o :: post). rewrite E. cbn [trace]. rewrite <- app_assoc. simpl.
        rewrite Hb. auto.
      * inversion Hc as [| | | ? ? Hp' Hk]; subst. rewrite run_call.
        destruct (IH env sched (mkMachine (Some p) (k :: stk) pend tr)) as [post [E HQ]].
        { split; [exact Hp'|split; [constructor; auto|exact Hp]]. }
        exists post. auto.
    + destruct (pick (hd 0 sched) pend) as [[[o k] rest]|] eqn:E.
      * destruct (pick_Forall _ _ _ _ _ E Hp) as [[He Hk] Hr]. cbn [fst snd] in He, Hk.
        rewrite (run_settle env f sched stk pend tr o k rest E).
        destruct (IH env (tl sched) (mkMachine (Some (k (env o))) stk rest
                                       (tr ++ [EEnd o (env o)]))) as [post [E' HQ]].
        { split; [exact (Hk (env o))|split; [exact Hs|exact Hr]]. }
        exists (EEnd o (env o) :: post). rewrite E'. cbn [trace]. rewrite <- app_assoc.
        simpl. rewrite He. auto.
      * rewrite (run_idle env f sched stk pend tr E). exists []. rewrite app_nil_r. auto.
Qed.

(** ** The events of a [Lask.ts] dispatch *)

Lemma lask_handler_trace `{NumberConversions} stdin sig env sched f :
  let a := if isTerminal stdin then JUndefined
           else match input_decoder sig with Some dec => dec (contents stdin) | None => JUndefined end in
  let out := env (OpInvoke a) in
  dispatch_trace (9 + f) env sched (lask_handler stdin sig) =
  (if isTerminal stdin then []
   else EStdinRead :: match input_decoder sig with
                      | Some _ => [EDecode "input" (JString (contents stdin))]
                      | None => [] end)
  ++ EBegin (OpInvoke a) :: EEnd (OpInvoke a) out ::
  (if is_undefined out then [EReturn]
   else [EEncode "output";
         EStdout (console_log_line
                    (match output_encoder sig with
                     | Some enc => match enc out with Some s => Some s | None => json_stringify 0 out end
                     | None => json_stringify 0 out
                     end));
         EReturn]).
Proof.
  intros a out. subst a out. unfold dispatch_trace, lask_handler, start. cbn [Nat.add].
  destruct (isTerminal stdin); [|destruct (input_decoder sig)];
    repeat run_step; destruct (is_undefined _); repeat run_step;
    rewrite run_stopped; reflexivity.
Qed.

(** ** The phases of a [part_003] dispatch *)

Section IoPhases.
Variable env : op -> jsval.

Lemma read_inputs_run l : forall inputs k f sched tr,
  exists sched' inputs' evs,
    run (5 * length (custom_keys l) + f) env sched
      (mkMachine (Some (read_inputs l inputs k)) [] [] tr)
    = run f env sched' (mkMachine (Some (k inputs')) [] [] (tr ++ evs)) /\
    forallb (fun e => negb (is_output_event e)) evs = true /\
    invocations evs = [] /\ decoded_keys evs = custom_keys l.
Proof.
  induction l as [|[key i] l IH]; intros inputs k f sched tr.
  - exists sched, inputs, []. rewrite app_nil_r. auto.
  - destruct i as [| |dec]; cbn [read_inputs custom_keys]; [apply IH|apply IH|].
    replace (5 * length (key :: custom_keys l) + f)
      with (S (S (S (S (S (5 * length (custom_keys l) + f)))))) by (simpl; lia).
    do 5 run_step.
    destruct (IH (create_data_property inputs key (dec (env (OpRead key)))) k f (tl (tl sched))
                ((((tr ++ [EBegin (OpRead key)]) ++ [EEnd (OpRead key) (env (OpRead key))])
                    ++ [EDecode key (env (OpRead key))]) ++ [EBegin OpTick]
                    ++ [EEnd OpTick (env OpTick)]))
      as (sched' & inputs' & evs & E & H1 & H2 & H3).
    exists sched', inputs',
      ([EBegin (OpRead key); EEnd (OpRead key) (env (OpRead key));
        EDecode key (env (OpRead key)); EBegin OpTick; EEnd OpTick (env OpTick)] ++ evs).
    rewrite <- !app_assoc in E |- *. cbn [app] in E |- *. rewrite E.
    split; [reflexivity|]. simpl. rewrite H1, H2, H3. auto.
Qed.

Lemma write_outputs_only Q output outs k :
  (forall key raw, Q (EBegin (OpWrite key raw)) = true) ->
  (forall key raw r, Q (EEnd (OpWrite key raw) r) = true) ->
  (forall key, Q (EEncode key) = true) -> Q (EThrow "TypeError") = true ->
  only Q k -> only Q (write_outputs output outs k).
Proof.
  intros Hb He Hn Ht Hk. induction outs as [|[key o] outs IH]; cbn [write_outputs]; [exact Hk|].
  constructor; [|exact IH].
  destruct (get_prop output key).
  - constructor; [apply Hn|]. constructor; [apply Hb|apply He|intros; constructor].
  - constructor; [exact Ht|constructor].
Qed.
End IoPhases.

Lemma invocations_app l1 l2 : invocations (l1 ++ l2) = invocations l1 ++ invocations l2.
Proof.
  induction l1 as [|e l1 IH]; [reflexivity|].
  destruct e as [[]| | | | | | | |]; simpl; rewrite ?IH; reflexivity.
Qed.

Lemma decoded_keys_app l1 l2 : decoded_keys (l1 ++ l2) = decoded_keys l1 ++ decoded_keys l2.
Proof.
  induction l1 as [|e l1 IH]; [reflexivity|].
  destruct e; simpl; rewrite ?IH; reflexivity.
Qed.

Lemma invocations_none tr :
  forallb (fun e => negb (is_invoke_event e)) tr = true -> invocations tr = [].
Proof.
  induction tr as [|e tr IH]; [reflexivity|].
  destruct e as [[]| | | | | | | |]; simpl; intros H; try discriminate H; auto.
Qed.

Lemma forallb_and_l {A} (p q : A -> bool) l :
  forallb (fun x => p x && q x) l = true -> forallb p l = true /\ forallb q l = true.
Proof.
  induction l as [|x l IH]; [auto|]. simpl. intros H.
  apply andb_prop in H as [H1 H2]. apply andb_prop in H1 as [Hp Hq].
  destruct (IH H2) as [Hl1 Hl2]. rewrite Hp, Hq, Hl1, Hl2. auto.
Qed.

Section IoDispatch.
Variable env : op -> jsval.

(** Up to the settling of the task's promise, a [part_003] dispatch
    runs one way whatever the scheduler does. *)
Lemma io_handler_phase name args inputs outputs sched f :
  exists sched' pre a,
    run (5 * length (custom_keys inputs) + 3 + f) env sched
      (start (io_handler name args inputs outputs))
    = run f env sched'
        (mkMachine (Some (write_outputs (env (OpInvoke a)) outputs (PEmit EReturn PDone)))
           [] [] (pre ++ [EBegin (OpInvoke a); EEnd (OpInvoke a) (env (OpInvoke a))])) /\
    forallb (fun e => negb (is_output_event e)) pre = true /\
    invocations pre = [] /\ decoded_keys pre = custom_keys inputs.
Proof.
  unfold io_handler, start. rewrite <- Nat.add_assoc.
  edestruct (read_inputs_run env inputs []) as (sched1 & inputs1 & evs & E & H1 & H2 & H3).
  rewrite E. cbn [Nat.add]. do 3 run_step.
  exists (tl sched1), (evs ++ [EConsoleLog ("Inputs for task " ++ name ++ ":")
                                          (spread args inputs1)]),
    (spread args inputs1).
  split; [rewrite <- !app_assoc; reflexivity|].
  rewrite forallb_app, H1, invocations_app, decoded_keys_app, H2, H3. simpl.
  rewrite app_nil_r. auto.
Qed.

(** Every [forEach] callback starts its write before any of them is
    awaited. *)
Lemma write_outputs_sync ps outs : forall K P tr f sched,
  run (3 * length outs + f) env sched (mkMachine (Some (write_outputs (JObject ps) outs K)) [] P tr)
  = run f env sched
      (mkMachine (Some K) []
         (P ++ map (fun '(key, o) =>
                      (OpWrite key (out_encoder o (match lookup_prop ps key with
                                                   | Some v => v | None => JUndefined end)),
                       fun _ : jsval => PDone)) outs)
         (tr ++ flat_map (fun '(key, o) =>
                  [EEncode key;
                   EBegin (OpWrite key (out_encoder o (match lookup_prop ps key with
                                                       | Some v => v | None => JUndefined end)))])
                outs)).
Proof.
  induction outs as [|[key o] outs IH]; intros K P tr f sched.
  - cbn [write_outputs length map flat_map]. rewrite !app_nil_r. reflexivity.
  - replace (3 * length ((key, o) :: outs) + f) with (S (S (S (3 * length outs + f))))
      by (simpl; lia).
    cbn [write_outputs]. run_step. cbn [get_prop]. run_step. run_step.
    rewrite IH. cbn [map flat_map]. rewrite <- !app_assoc. reflexivity.
Qed.
End IoDispatch.

Lemma lask_trace_ge `{NumberConversions} stdin sig env sched fuel :
  9 <= fuel ->
  let a := if isTerminal stdin then JUndefined
           else match input_decoder sig with Some dec => dec (contents stdin) | None => JUndefined end in
  let out := env (OpInvoke a) in
  dispatch_trace fuel env sched (lask_handler stdin sig) =
  (if isTerminal stdin then []
   else EStdinRead :: match input_decoder sig with
                      | Some _ => [EDecode "input" (JString (contents stdin))]
                      | None => [] end)
  ++ EBegin (OpInvoke a) :: EEnd (OpInvoke a) out ::
  (if is_undefined out then [EReturn]
   else [EEncode "output";
         EStdout (console_log_line
                    (match output_encoder sig with
                     | Some enc => match enc out with Some s => Some s | None => json_stringify 0 out end
                     | None => json_stringify 0 out
                     end));
         EReturn]).
Proof.
  intros Hf. replace fuel with (9 + (fuel - 9)) by lia. apply lask_handler_trace.
Qed.

(* ================================================================== *)
(** ** The command handler *)

(** C2: when the task declares an input decoder, a dispatch on an
    interactive stdin never reads it and calls the task with [undefined];
    on a non-interactive stdin it reads it once, decodes its whole
    contents, and calls the task with the decoded value. *)
Theorem lask_interactive_input_skip `{NumberConversions} stdin sig dec env sched fuel :
  input_decoder sig = Some dec -> 9 <= fuel ->
  let tr := dispatch_trace fuel env sched (lask_handler stdin sig) in
  if isTerminal stdin
  then stdin_reads tr = 0 /\ decoded_keys tr = [] /\ invocations tr = [JUndefined]
  else stdin_reads tr = 1 /\ In (EDecode "input" (JString (contents stdin))) tr /\
       invocations tr = [dec (contents stdin)].
Proof.
  intros Hd Hf tr. subst tr. pose proof (lask_trace_ge stdin sig env sched fuel Hf) as E.
  cbv zeta in E. rewrite E, Hd. clear E.
  destruct (isTerminal stdin); destruct (is_undefined (env _)); cbn.
  - auto.
  - auto.
  - split; [reflexivity|split; [right; left; reflexivity|reflexivity]].
  - split; [reflexivity|split; [right; left; reflexivity|reflexivity]].
Qed.

(** C9: on a non-interactive stdin, a task registered without an input
    decoder still has stdin read, but is called with [undefined]: the
    text is not decoded, and the dispatch goes on without an error. *)
Theorem lask_input_without_decoder `{NumberConversions} stdin sig env sched fuel :
  isTerminal stdin = false -> input_decoder sig = None -> 9 <= fuel ->
  let tr := dispatch_trace fuel env sched (lask_handler stdin sig) in
  stdin_reads tr = 1 /\ decoded_keys tr = [] /\ invocations tr = [JUndefined] /\
  (forall msg, ~ In (EThrow msg) tr) /\ In EReturn tr.
Proof.
  intros Ht Hd Hf tr. subst tr. pose proof (lask_trace_ge stdin sig env sched fuel Hf) as E.
  cbv zeta in E. rewrite E, Ht, Hd. clear E.
  destruct (is_undefined (env _)); cbn; (split; [reflexivity|]); (split; [reflexivity|]);
    (split; [reflexivity|]); (split; [intros msg; intuition discriminate | tauto]).
Qed.

(** C10: for a task registered without an output encoder, a defined
    result is printed on stdout as [JSON.stringify(output)] (no
    indentation) followed by a newline, and an [undefined] result prints
    nothing. *)
Theorem lask_default_json_output `{NumberConversions} stdin sig env sched fuel :
  output_encoder sig = None -> 9 <= fuel ->
  let tr := dispatch_trace fuel env sched (lask_handler stdin sig) in
  exists a,
    invocations tr = [a] /\ In (EEnd (OpInvoke a) (env (OpInvoke a))) tr /\
    stdout_lines tr = (if is_undefined (env (OpInvoke a)) then []
                       else [console_log_line (json_stringify 0 (env (OpInvoke a)))]).
Proof.
  intros He Hf tr. subst tr. pose proof (lask_trace_ge stdin sig env sched fuel Hf) as E.
  cbv zeta in E. rewrite E, He. clear E.
  exists (if isTerminal stdin then JUndefined
          else match input_decoder sig with Some dec => dec (contents stdin) | None => JUndefined end).
  split; [|split].
  - rewrite invocations_app.
    destruct (isTerminal stdin); [|destruct (input_decoder sig)];
      destruct (is_undefined (env _)); reflexivity.
  - apply in_or_app. right. right. left. reflexivity.
  - destruct (isTerminal stdin); [|destruct (input_decoder sig)];
      destruct (is_undefined (env _)); reflexivity.
Qed.

(** C8: in a [Lask.ts] dispatch and in a [part_003] dispatch, whatever
    order pending I/O settles in, the task's function is called once;
    every input is read and decoded before the call, and no output is
    encoded or written before its promise settles. *)
Theorem dispatch_phases_ordered `{NumberConversions} stdin sig name args inputs outputs
    env sched fuel :
  5 * length (custom_keys inputs) + 9 <= fuel ->
  invoked_between_io
    (if isTerminal stdin then []
     else match input_decoder sig with Some _ => ["input"%string] | None => [] end)
    (dispatch_trace fuel env sched (lask_handler stdin sig)) /\
  invoked_between_io (custom_keys inputs)
    (dispatch_trace fuel env sched (io_handler name args inputs outputs)).
Proof.
  intros Hf. split.
  - pose proof (lask_trace_ge stdin sig env sched fuel ltac:(lia)) as E. cbv zeta in E.
    rewrite E. clear E. do 4 eexists. split; [reflexivity|].
    destruct (isTerminal stdin); [|destruct (input_decoder sig)];
      destruct (is_undefined (env _)); cbn; auto.
  - replace fuel with (5 * length (custom_keys inputs) + 3 + (fuel - 5 * length (custom_keys inputs) - 3))
      by lia.
    unfold dispatch_trace.
    destruct (io_handler_phase env name args inputs outputs sched
                (fuel - 5 * length (custom_keys inputs) - 3)) as (sched' & pre & a & E & H1 & H2 & H3).
    rewrite E. clear E.
    set (Q := fun e => negb (is_input_event e) && negb (is_invoke_event e)).
    destruct (run_only Q (fuel - 5 * length (custom_keys inputs) - 3) env sched'
                (mkMachine (Some (write_outputs (env (OpInvoke a)) outputs (PEmit EReturn PDone)))
                   [] [] (pre ++ [EBegin (OpInvoke a); EEnd (OpInvoke a) (env (OpInvoke a))])))
      as [post [E HQ]].
    { split; [|split; constructor]. cbn [cur].
      apply write_outputs_only; try (intros; reflexivity).
      constructor; [reflexivity|constructor]. }
    rewrite E. cbn [trace]. rewrite <- app_assoc.
    apply forallb_and_l in HQ as [HQ1 HQ2].
    exists pre, a, (env (OpInvoke a)), post. repeat split; auto.
    apply invocations_none. exact HQ2.
Qed.

(** ** Output bindings of [part_003] *)

(** C4 (what the code does): when the task's result is an object, every
    output's write is started, in declaration order, and the command
    handler returns, before any write completes; after that only write
    completions remain. *)
Theorem io_outputs_not_awaited name args inputs outputs ps env sched fuel :
  (forall a, env (OpInvoke a) = JObject ps) ->
  5 * length (custom_keys inputs) + 3 * length outputs + 5 <= fuel ->
  exists pre a post,
    dispatch_trace fuel env sched (io_handler name args inputs outputs) =
    pre ++ EBegin (OpInvoke a) :: EEnd (OpInvoke a) (JObject ps) ::
      flat_map (fun '(key, o) =>
                  [EEncode key;
                   EBegin (OpWrite key (out_encoder o (match lookup_prop ps key with
                                                       | Some v => v | None => JUndefined end)))])
               outputs
      ++ EReturn :: post /\
    forallb is_write_end post = true.
Proof.
  intros Hout Hf.
  set (g := fuel - 5 * length (custom_keys inputs) - 3 * length outputs - 5).
  replace fuel with (5 * length (custom_keys inputs) + 3 + (3 * length outputs + S (S g)))
    by (unfold g; lia).
  unfold dispatch_trace.
  destruct (io_handler_phase env name args inputs outputs sched (3 * length outputs + S (S g)))
    as (sched' & pre & a & E & _ & _ & _).
  rewrite E, Hout, write_outputs_sync. clear E. run_step. run_step.
  set (P := map _ outputs).
  match goal with
  | |- context [run g env sched' ?m] => destruct (run_only is_write_end g env sched' m) as [post [E HQ]]
  end.
  { split; [exact I|split; [constructor|]]. cbn [pending app]. unfold P.
    apply Forall_forall. intros [o k] Hin. apply in_map_iff in Hin as [[key out] [Hok _]].
    injection Hok as <- <-. cbn [fst snd]. split; [reflexivity|intros; constructor]. }
  rewrite E. cbn [trace]. exists pre, a, post. split; [|exact HQ].
  rewrite <- !app_assoc. reflexivity.
Qed.

(** ** Registry updates *)

Section RegistryFacts.
Context {T : Type}.

Lemma own_set_twice (ps : list (string * T)) k v1 v2 :
  own_set (own_set ps k v1) k v2 = own_set ps k v2.
Proof.
  induction ps as [|[k' v'] ps IH]; cbn.
  - rewrite String.eqb_refl. reflexivity.
  - destruct (String.eqb k k') eqn:E; cbn.
    + rewrite String.eqb_refl. reflexivity.
    + rewrite E, IH. reflexivity.
Qed.

Lemma own_get_set_same (ps : list (string * T)) k v : own_get (own_set ps k v) k = Some v.
Proof.
  induction ps as [|[k' v'] ps IH]; cbn.
  - rewrite String.eqb_refl. reflexivity.
  - destruct (String.eqb k k') eqn:E; cbn; [rewrite String.eqb_refl|rewrite E]; auto.
Qed.

Lemma own_get_set_other (ps : list (string * T)) k k' v :
  k' <> k -> own_get (own_set ps k v) k' = own_get ps k'.
Proof.
  intros Hne. induction ps as [|[k0 v0] ps IH]; cbn.
  - apply String.eqb_neq in Hne. rewrite Hne. reflexivity.
  - destruct (String.eqb k k0) eqn:E; cbn.
    + apply String.eqb_eq in E. subst k0. apply String.eqb_neq in Hne. rewrite Hne. reflexivity.
    + rewrite IH. reflexivity.
Qed.

Lemma own_get_in (ps : list (string * T)) k : In k (map fst ps) -> exists v, own_get ps k = Some v.
Proof.
  induction ps as [|[k' v'] ps IH]; cbn; [tauto|].
  intros [<-|Hin].
  - exists v'. rewrite String.eqb_refl. reflexivity.
  - destruct (String.eqb k k'); [eauto|auto].
Qed.
End RegistryFacts.

(** ** The YAML validator on objects *)

Lemma validate_object_first_failure inherited data pre key propSchema post msg :
  is_object_type data = true ->
  forallb (fun '(k, s) =>
             match validateAgainstSchema inherited (member inherited data k) s with
             | None => true | Some _ => false end) pre = true ->
  validateAgainstSchema inherited (member inherited data key) propSchema = Some msg ->
  validateAgainstSchema inherited data (YObject (pre ++ (key, propSchema) :: post)) = Some msg.
Proof.
  intros Hobj Hpre Hkey. cbn [validateAgainstSchema]. rewrite Hobj.
  induction pre as [|[k s] pre IH]; cbn [app].
  - rewrite Hkey. reflexivity.
  - cbn [forallb] in Hpre. apply andb_prop in Hpre as [Hk Hrest].
    destruct (validateAgainstSchema inherited (member inherited data k) s); [discriminate|].
    apply IH. exact Hrest.
Qed.

(** ** The remaining claims *)

(** C3 (amended): when the command exits with a non-zero
    status, [$] writes one error record, naming the status and the
    decoded stderr, and no debug record; it rejects with a plain [Error]
    whose message is the decoded stderr, and that rejection is the same
    whatever the non-zero status is. *)
Theorem dollar_failure_plain_error out :
  code out <> 0%Z ->
  dollar out =
    ([{| level := "error";
         message := units ("Command failed with exit code " ++ z_text (code out) ++ ": ")%string
                    ++ text_decode (cmd_stderr out) |}],
     inl {| error_name := "Error"; error_message := text_decode (cmd_stderr out) |}) /\
  (forall out', code out' <> 0%Z -> cmd_stderr out' = cmd_stderr out ->
                snd (dollar out') = snd (dollar out)).
Proof.
  intros Hc. assert (Hfail : forall o, code o <> 0%Z -> Z.eqb (code o) 0 = false)
    by (intros o; apply Z.eqb_neq).
  split.
  - unfold dollar. rewrite (Hfail out Hc). reflexivity.
  - intros out' Hc' Hs. unfold dollar. rewrite (Hfail out Hc), (Hfail out' Hc'). cbn [negb snd].
    rewrite Hs. reflexivity.
Qed.

(** C5: registering a task under a name already in use gives the same
    registry as registering only the later task; the name then reads as
    the later task, and every other name reads as before. *)
Theorem task_last_registration_wins {F : Type} (tasks : registry (TaskEntry F)) name other
    sig1 h1 sig2 h2 :
  task (task tasks name sig1 h1) name sig2 h2 = task tasks name sig2 h2 /\
  get_task (task (task tasks name sig1 h1) name sig2 h2) name
    = Found {| func := h2; signature := sig2 |} /\
  (other <> name ->
   get_task (task (task tasks name sig1 h1) name sig2 h2) other = get_task tasks other).
Proof.
  unfold task, set_prop. cbn [own]. rewrite own_set_twice. split; [reflexivity|split].
  - unfold get_task; cbn [own]. rewrite own_get_set_same. reflexivity.
  - intros Hne. unfold get_task; cbn [own]. rewrite own_get_set_other by exact Hne. reflexivity.
Qed.

(** C6 (amended): when the name given on the command line
    reads as [undefined] in the registry (no own property, and not a
    member of [Object.prototype]), the first [part_004] [bite]
    writes one error record "Task not found: name" and the [part_002]
    [bite] one stderr line saying the same; neither writes to stdout or
    throws, so the process exits with status 0. *)
Theorem unknown_task_exits_zero `{NumberConversions} tasks argv stdin :
  get_task tasks (task_name argv) = Absent ->
  console (bite_part004 tasks argv stdin)
    = [LogLine {| level := "error"; message := units ("Task not found: " ++ task_name argv) |}] /\
  exit_status (completion_of (bite_part004 tasks argv stdin)) = Some 0%Z /\
  console (bite_part002 tasks argv stdin) = [ErrLine ("Task not found: " ++ task_name argv)%string] /\
  exit_status (completion_of (bite_part002 tasks argv stdin)) = Some 0%Z.
Proof.
  intros Habs. unfold bite_part004, bite_part002. cbv zeta. rewrite Habs.
  repeat split.
Qed.

(** C7 (what the code does): when a value is object-typed and the first
    property of an object schema it fails on is [key], the error is the
    one of that property's value alone: [key] is not added to it (the
    array case, by contrast, prefixes "Array item i: "), and [decode]
    only prefixes "YAML parsing failed: ". *)
Theorem object_failure_omits_key inherited yamlParse text data pre key propSchema post msg :
  yamlParse text = inr data ->
  is_object_type data = true ->
  forallb (fun '(k, s) =>
             match validateAgainstSchema inherited (member inherited data k) s with
             | None => true | Some _ => false end) pre = true ->
  validateAgainstSchema inherited (member inherited data key) propSchema = Some msg ->
  validateAgainstSchema inherited data (YObject (pre ++ (key, propSchema) :: post)) = Some msg /\
  yaml_decode inherited yamlParse (Some (YObject (pre ++ (key, propSchema) :: post))) text
  = inl {| error_name := "Error"; error_message := ("YAML parsing failed: " ++ msg)%string |}.
Proof.
  intros Hparse Hobj Hpre Hkey.
  pose proof (validate_object_first_failure inherited data pre key propSchema post msg Hobj Hpre Hkey)
    as Hv.
  split; [exact Hv|]. unfold yaml_decode. rewrite Hparse, Hv. reflexivity.
Qed.

(** ** Witnesses *)

Lemma lask_interactive_input_skip_witness :
  input_decoder echo_signature = Some JString /\ 9 <= 9 /\
  (let tr := dispatch_trace 9 echo_env [] (lask_handler piped_stdin echo_signature) in
   if isTerminal piped_stdin
   then stdin_reads tr = 0 /\ decoded_keys tr = [] /\ invocations tr = [JUndefined]
   else stdin_reads tr = 1 /\ In (EDecode "input"%string (JString (contents piped_stdin))) tr /\
        invocations tr = [JString (contents piped_stdin)]).
Proof.
  split; [reflexivity|split; [lia|]].
  apply (lask_interactive_input_skip piped_stdin echo_signature JString echo_env [] 9);
    [reflexivity|lia].
Defined.

Lemma lask_input_without_decoder_witness :
  isTerminal piped_stdin = false /\ input_decoder bare_signature = None /\ 9 <= 9 /\
  (let tr := dispatch_trace 9 echo_env [] (lask_handler piped_stdin bare_signature) in
   stdin_reads tr = 1 /\ decoded_keys tr = [] /\ invocations tr = [JUndefined] /\
   (forall msg, ~ In (EThrow msg) tr) /\ In EReturn tr).
Proof.
  split; [reflexivity|split; [reflexivity|split; [lia|]]].
  apply (lask_input_without_decoder piped_stdin bare_signature echo_env [] 9);
    [reflexivity|reflexivity|lia].
Defined.

Lemma lask_default_json_output_witness :
  output_encoder echo_signature = None /\ 9 <= 9 /\
  (let tr := dispatch_trace 9 echo_env [] (lask_handler piped_stdin echo_signature) in
   exists a,
     invocations tr = [a] /\ In (EEnd (OpInvoke a) (echo_env (OpInvoke a))) tr /\
     stdout_lines tr = (if is_undefined (echo_env (OpInvoke a)) then []
                        else [console_log_line (json_stringify 0 (echo_env (OpInvoke a)))])).
Proof.
  split; [reflexivity|split; [lia|]].
  apply (lask_default_json_output piped_stdin echo_signature echo_env [] 9); [reflexivity|lia].
Defined.

Lemma dispatch_phases_ordered_witness :
  5 * length (custom_keys text_input) + 9 <= 14 /\
  invoked_between_io
    (if isTerminal piped_stdin then []
     else match input_decoder echo_signature with Some _ => ["input"%string] | None => [] end)
    (dispatch_trace 14 echo_env [] (lask_handler piped_stdin echo_signature)) /\
  invoked_between_io (custom_keys text_input)
    (dispatch_trace 14 echo_env [] (io_handler "echo"%string [] text_input two_outputs)).
Proof.
  split; [vm_compute; lia|].
  apply (dispatch_phases_ordered piped_stdin echo_signature "echo"%string [] text_input two_outputs
           echo_env [] 14).
  vm_compute. lia.
Defined.

Lemma io_outputs_not_awaited_witness :
  (forall a, two_outputs_env (OpInvoke a) = JObject [("report"%string, JString "r"%string); ("summary"%string, JString "s"%string)]) /\
  5 * length (custom_keys text_input) + 3 * length two_outputs + 5 <= 20 /\
  exists pre a post,
    dispatch_trace 20 two_outputs_env [] (io_handler "publish"%string [] text_input two_outputs) =
    pre ++ EBegin (OpInvoke a) :: EEnd (OpInvoke a) (JObject [("report"%string, JString "r"%string); ("summary"%string, JString "s"%string)]) ::
      flat_map (fun '(key, o) =>
                  [EEncode key;
                   EBegin (OpWrite key (out_encoder o
                     (match lookup_prop [("report"%string, JString "r"%string); ("summary"%string, JString "s"%string)] key with
                      | Some v => v | None => JUndefined end)))])
               two_outputs
      ++ EReturn :: post /\
    forallb is_write_end post = true.
Proof.
  split; [intros a; reflexivity|split; [vm_compute; lia|]].
  apply (io_outputs_not_awaited "publish"%string [] text_input two_outputs
           [("report"%string, JString "r"%string); ("summary"%string, JString "s"%string)] two_outputs_env [] 20);
    [intros a; reflexivity|vm_compute; lia].
Defined.

Section StringWitnesses.
Local Open Scope string_scope.

Lemma dollar_failure_plain_error_witness :
code shell_boom <> 0%Z /\
dollar shell_boom =
  ([{| level := "error"; message := units "Command failed with exit code 2: boom" |}],
   inl {| error_name := "Error"; error_message := units "boom" |}).
Proof.
split; [discriminate|].
exact (eq_trans (proj1 (dollar_failure_plain_error shell_boom ltac:(discriminate))) eq_refl).
Defined.

(** [shell_boom] and the same command exiting with status 3 reject with
    the same plain [Error "boom"]: no [ShellCommandError], and no exit
    code in the error. *)
Lemma dollar_error_without_code :
snd (dollar shell_boom) = inl {| error_name := "Error"; error_message := units "boom" |} /\
snd (dollar {| code := 3; cmd_stdout := cmd_stdout shell_boom; cmd_stderr := cmd_stderr shell_boom |})
= snd (dollar shell_boom).
Proof.
vm_compute. split; reflexivity.
Qed.

Lemma task_last_registration_wins_witness :
"bar" <> "foo" /\
get_task
  (task (task (task empty_registry "bar" bare_signature 0) "foo" bare_signature 1)
     "foo" echo_signature 2) "foo"
= Found {| func := 2; signature := echo_signature |} /\
get_task
  (task (task (task empty_registry "bar" bare_signature 0) "foo" bare_signature 1)
     "foo" echo_signature 2) "bar"
= Found {| func := 0; signature := bare_signature |}.
Proof.
destruct (task_last_registration_wins (task empty_registry "bar" bare_signature 0) "foo" "bar"
            bare_signature 1 echo_signature 2) as [_ [H2 H3]].
split; [discriminate|split; [exact H2|]].
assert (Hne : "bar" <> "foo") by discriminate.
exact (eq_trans (H3 Hne) eq_refl).
Defined.

Lemma unknown_task_exits_zero_witness :
get_task echo_tasks (task_name ["deploy"]) = Absent /\
console (bite_part004 echo_tasks ["deploy"] piped_stdin)
  = [LogLine {| level := "error"; message := units "Task not found: deploy" |}] /\
exit_status (completion_of (bite_part004 echo_tasks ["deploy"] piped_stdin)) = Some 0%Z /\
console (bite_part002 echo_tasks ["deploy"] piped_stdin) = [ErrLine "Task not found: deploy"] /\
exit_status (completion_of (bite_part002 echo_tasks ["deploy"] piped_stdin)) = Some 0%Z.
Proof.
split; [reflexivity|].
exact (unknown_task_exits_zero echo_tasks ["deploy"] piped_stdin eq_refl).
Defined.

(** The registry of [echo_tasks] has no [deploy]: dispatching it ends
    normally, with no error thrown, and the process exits with status 0
    in both versions. *)
Lemma unknown_task_completes :
completion_of (bite_part004 echo_tasks ["deploy"] piped_stdin) = Completed /\
exit_status (completion_of (bite_part004 echo_tasks ["deploy"] piped_stdin)) = Some 0%Z /\
completion_of (bite_part002 echo_tasks ["deploy"] piped_stdin) = Completed /\
exit_status (completion_of (bite_part002 echo_tasks ["deploy"] piped_stdin)) = Some 0%Z.
Proof.
vm_compute. repeat split.
Qed.

Lemma object_failure_omits_key_witness :
validateAgainstSchema plain_inherited (DObject [("a", DString "x")]) (YObject [("a", YNumber)])
= Some "Expected number, got string" /\
yaml_decode plain_inherited (fun _ => inr (DObject [("a", DString "x")]))
  (Some (YObject [("a", YNumber)])) "a: x"
= inl {| error_name := "Error"; error_message := "YAML parsing failed: Expected number, got string" |}.
Proof.
exact (object_failure_omits_key plain_inherited (fun _ => inr (DObject [("a", DString "x")])) "a: x"
         (DObject [("a", DString "x")]) [] "a" YNumber [] "Expected number, got string"
         eq_refl eq_refl eq_refl eq_refl).
Defined.

End StringWitnesses.

(* ------------------------------------------------------------------ *)
(** ** Text through [TextEncoder] and [TextDecoder], and files *)

Section Utf8Facts.
Local Open Scope Z_scope.

Lemma lor_low (x y k : Z) : 0 <= k -> 0 <= y < 2 ^ k -> Z.lor (x * 2 ^ k) y = x * 2 ^ k + y.
Proof.
  intros Hk Hy.
  assert (H0 : Z.land (x * 2 ^ k) y = 0).
  { rewrite <- (Z.mod_small y (2 ^ k)) by lia.
    rewrite <- Z.land_ones by lia.
    rewrite (Z.land_comm y), Z.land_assoc, Z.land_ones by lia.
    rewrite Z.mod_mul by (apply Z.pow_nonzero; lia).
    apply Z.land_0_l. }
  rewrite <- (Z.lxor_lor _ _ H0). symmetry. apply Z.add_nocarry_lxor, H0.
Qed.

Ltac zcase :=
  repeat (match goal with
   | |- context [Z.leb ?a ?b] => destruct (Z.leb_spec a b)
   | |- context [Z.eqb ?a ?b] => destruct (Z.eqb_spec a b)
   end; cbn [andb negb orb]; try (exfalso; lia)).

Lemma utf8_step_ascii (b : Z) : 0 <= b <= 0x7F -> utf8_step utf8_init b = ([b], utf8_init, false).
Proof. intros H. unfold utf8_step. cbn [utf8_bytes_needed utf8_init]. zcase; reflexivity. Qed.

Lemma utf8_step_lead2 (b : Z) : 0xC2 <= b <= 0xDF ->
  utf8_step utf8_init b = ([], {| utf8_code_point := Z.land b 0x1F; utf8_bytes_seen := 0;
    utf8_bytes_needed := 1; utf8_lower_boundary := 0x80; utf8_upper_boundary := 0xBF |}, false).
Proof. intros H. unfold utf8_step. cbn [utf8_bytes_needed utf8_init utf8_lower_boundary utf8_upper_boundary utf8_bytes_seen]. zcase; reflexivity. Qed.

Lemma utf8_step_lead3 (b : Z) : 0xE0 <= b <= 0xEF ->
  utf8_step utf8_init b = ([], {| utf8_code_point := Z.land b 0xF; utf8_bytes_seen := 0;
    utf8_bytes_needed := 2; utf8_lower_boundary := if b =? 0xE0 then 0xA0 else 0x80;
    utf8_upper_boundary := if b =? 0xED then 0x9F else 0xBF |}, false).
Proof. intros H. unfold utf8_step. cbn [utf8_bytes_needed utf8_init utf8_lower_boundary utf8_upper_boundary utf8_bytes_seen]. zcase; reflexivity. Qed.

Lemma utf8_step_lead4 (b : Z) : 0xF0 <= b <= 0xF4 ->
  utf8_step utf8_init b = ([], {| utf8_code_point := Z.land b 0x7; utf8_bytes_seen := 0;
    utf8_bytes_needed := 3; utf8_lower_boundary := if b =? 0xF0 then 0x90 else 0x80;
    utf8_upper_boundary := if b =? 0xF4 then 0x8F else 0xBF |}, false).
Proof. intros H. unfold utf8_step. cbn [utf8_bytes_needed utf8_init utf8_lower_boundary utf8_upper_boundary utf8_bytes_seen]. zcase; reflexivity. Qed.

Lemma utf8_step_cont (st : utf8_state) (b : Z) :
  utf8_bytes_needed st <> 0 ->
  utf8_lower_boundary st <= b <= utf8_upper_boundary st ->
  utf8_bytes_seen st + 1 <> utf8_bytes_needed st ->
  utf8_step st b = ([], {| utf8_code_point := Z.lor (Z.shiftl (utf8_code_point st) 6) (Z.land b 0x3F);
    utf8_bytes_seen := utf8_bytes_seen st + 1; utf8_bytes_needed := utf8_bytes_needed st;
    utf8_lower_boundary := 0x80; utf8_upper_boundary := 0xBF |}, false).
Proof. intros H1 H2 H3. unfold utf8_step. zcase; reflexivity. Qed.

Lemma utf8_step_last (st : utf8_state) (b : Z) :
  utf8_bytes_needed st <> 0 ->
  utf8_lower_boundary st <= b <= utf8_upper_boundary st ->
  utf8_bytes_seen st + 1 = utf8_bytes_needed st ->
  utf8_step st b = ([Z.lor (Z.shiftl (utf8_code_point st) 6) (Z.land b 0x3F)], utf8_init, false).
Proof. intros H1 H2 H3. unfold utf8_step. zcase; reflexivity. Qed.

Lemma utf8_run_step (st st' : utf8_state) (b : Z) (out : list Z) (r : bytes) :
  utf8_step st b = (out, st', false) -> utf8_run st (b :: r) = out ++ utf8_run st' r.
Proof. intros H. cbn [utf8_run]. rewrite H. reflexivity. Qed.

Lemma land_3F (x : Z) : Z.land x 0x3F = x mod 64.
Proof. exact (Z.land_ones x 6 ltac:(lia)). Qed.
Lemma land_1F (x : Z) : Z.land x 0x1F = x mod 32.
Proof. exact (Z.land_ones x 5 ltac:(lia)). Qed.
Lemma land_F (x : Z) : Z.land x 0xF = x mod 16.
Proof. exact (Z.land_ones x 4 ltac:(lia)). Qed.
Lemma land_7 (x : Z) : Z.land x 0x7 = x mod 8.
Proof. exact (Z.land_ones x 3 ltac:(lia)). Qed.

Lemma cont_byte (x : Z) : Z.lor 0x80 (Z.land x 0x3F) = 128 + x mod 64.
Proof.
  rewrite land_3F, Z.lor_comm.
  rewrite (Z.lor_comm (x mod 64)).
  change 0x80 with (1 * 2 ^ 7). rewrite lor_low by (pose proof (Z.mod_pos_bound x 64); lia).
  reflexivity.
Qed.

Lemma append_6 (a y : Z) : 0 <= y < 64 -> Z.lor (Z.shiftl a 6) y = a * 64 + y.
Proof. intros H. rewrite Z.shiftl_mul_pow2 by lia. apply (lor_low a y 6); lia. Qed.

Ltac zdiv := Z.div_mod_to_equations; lia.
Ltac utf8_proj := cbn [utf8_code_point utf8_bytes_seen utf8_bytes_needed utf8_lower_boundary utf8_upper_boundary].

Lemma utf8_run_point (cp : Z) (r : bytes) :
  0 <= cp <= 0x10FFFF -> ~ (0xD800 <= cp <= 0xDFFF) ->
  utf8_run utf8_init (utf8_encode_point cp ++ r) = cp :: utf8_run utf8_init r.
Proof.
  intros Hr Hs. unfold utf8_encode_point.
  rewrite !cont_byte, !Z.shiftr_div_pow2 by lia.
  try change (2 ^ 0) with 1; try change (2 ^ 6) with 64;
  try change (2 ^ 12) with 4096; try change (2 ^ 18) with 262144.
  rewrite !Z.div_1_r.
  destruct (Z.leb_spec cp 0x7F).
  { cbn [app]. rewrite (utf8_run_step _ _ _ _ _ (utf8_step_ascii cp ltac:(lia))). reflexivity. }
  destruct (Z.leb_spec cp 0x7FF).
  { cbn [app].
    rewrite (utf8_run_step _ _ _ _ _ (utf8_step_lead2 (cp / 64 + 0xC0) ltac:(zdiv))).
    erewrite utf8_run_step by (apply utf8_step_last; utf8_proj; zdiv).
    cbn [app]; utf8_proj. f_equal.
    rewrite land_1F, land_3F, append_6 by zdiv. zdiv. }
  destruct (Z.leb_spec cp 0xFFFF).
  { cbn [app].
    rewrite (utf8_run_step _ _ _ _ _ (utf8_step_lead3 (cp / 4096 + 0xE0) ltac:(zdiv))).
    erewrite utf8_run_step by (apply utf8_step_cont; utf8_proj;
      try (destruct (Z.eqb_spec (cp / 4096 + 0xE0) 0xE0);
           destruct (Z.eqb_spec (cp / 4096 + 0xE0) 0xED)); zdiv).
    erewrite utf8_run_step by (apply utf8_step_last; utf8_proj; zdiv).
    cbn [app]; utf8_proj. f_equal.
    rewrite land_F, !land_3F, !append_6 by zdiv. zdiv. }
  cbn [app].
  rewrite (utf8_run_step _ _ _ _ _ (utf8_step_lead4 (cp / 262144 + 0xF0) ltac:(zdiv))).
  erewrite utf8_run_step by (apply utf8_step_cont; utf8_proj;
    try (destruct (Z.eqb_spec (cp / 262144 + 0xF0) 0xF0);
         destruct (Z.eqb_spec (cp / 262144 + 0xF0) 0xF4)); zdiv).
  erewrite utf8_run_step by (apply utf8_step_cont; utf8_proj; zdiv).
  erewrite utf8_run_step by (apply utf8_step_last; utf8_proj; zdiv).
  cbn [app]; utf8_proj. f_equal.
  rewrite land_7, !land_3F, !append_6 by zdiv. zdiv.
Qed.

Lemma utf16_pair_ind (P : utf16 -> Prop) :
  P [] -> (forall c, P [c]) -> (forall c d r, P r -> P (d :: r) -> P (c :: d :: r)) ->
  forall s, P s.
Proof.
  intros H0 H1 H2 s.
  enough (H : P s /\ forall c, P (c :: s)) by apply H.
  induction s as [|d r [IHr IHc]]; split; auto.
Qed.

Lemma is_high_surrogate_spec (c : Z) : is_high_surrogate c = true <-> 0xD800 <= c <= 0xDBFF.
Proof. unfold is_high_surrogate. rewrite andb_true_iff, !Z.leb_le. reflexivity. Qed.
Lemma is_low_surrogate_spec (c : Z) : is_low_surrogate c = true <-> 0xDC00 <= c <= 0xDFFF.
Proof. unfold is_low_surrogate. rewrite andb_true_iff, !Z.leb_le. reflexivity. Qed.

Lemma code_units_cons (c : Z) (s : utf16) :
  code_units (c :: s) = true <-> 0 <= c <= 0xFFFF /\ code_units s = true.
Proof. unfold code_units. cbn [forallb]. rewrite andb_true_iff, andb_true_iff, !Z.leb_le. reflexivity. Qed.

Ltac surr c :=
  let Hh := fresh "Hh" in let Hl := fresh "Hl" in
  destruct (is_high_surrogate c) eqn:Hh;
  [apply is_high_surrogate_spec in Hh
  | assert (~ (0xD800 <= c <= 0xDBFF)) by (rewrite <- is_high_surrogate_spec; congruence);
    destruct (is_low_surrogate c) eqn:Hl;
    [apply is_low_surrogate_spec in Hl
    | assert (~ (0xDC00 <= c <= 0xDFFF)) by (rewrite <- is_low_surrogate_spec; congruence)]].

Lemma pair_code_point (c d : Z) : 0xD800 <= c <= 0xDBFF -> 0xDC00 <= d <= 0xDFFF ->
  0x10000 + Z.shiftl (Z.land c 0x3FF) 10 + Z.land d 0x3FF
  = 0x10000 + (c - 0xD800) * 1024 + (d - 0xDC00).
Proof.
  intros Hc Hd. rewrite Z.shiftl_mul_pow2 by lia.
  rewrite !(Z.land_ones _ 10) by lia. change (2 ^ 10) with 1024. zdiv.
Qed.

Lemma scalar_values_cons2 (c d : Z) (r : utf16) :
  scalar_values (c :: d :: r) =
  if is_high_surrogate c then
    if is_low_surrogate d
    then (0x10000 + Z.shiftl (Z.land c 0x3FF) 10 + Z.land d 0x3FF) :: scalar_values r
    else 0xFFFD :: scalar_values (d :: r)
  else if is_low_surrogate c then 0xFFFD :: scalar_values (d :: r)
  else c :: scalar_values (d :: r).
Proof. reflexivity. Qed.

Lemma scalar_values_scalar (s : utf16) : code_units s = true -> Forall scalar (scalar_values s).
Proof.
  induction s as [|c|c d r IHr IHdr] using utf16_pair_ind; intros Hs.
  - constructor.
  - apply code_units_cons in Hs as [Hc _]. cbn [scalar_values].
    surr c; (apply Forall_cons; [unfold scalar; lia | apply Forall_nil]).
  - pose proof Hs as Hs'. apply code_units_cons in Hs' as [Hc Hdr].
    pose proof Hdr as Hdr'. apply code_units_cons in Hdr' as [Hd Hr].
    rewrite scalar_values_cons2. surr c.
    + destruct (is_low_surrogate d) eqn:Hl; [apply is_low_surrogate_spec in Hl|].
      * constructor; [|auto]. rewrite pair_code_point by lia. unfold scalar; lia.
      * constructor; [unfold scalar; lia | auto].
    + constructor; [unfold scalar; lia | auto].
    + constructor; [unfold scalar; lia | auto].
Qed.

Lemma to_well_formed_cons2 (c d : Z) (r : utf16) :
  to_well_formed (c :: d :: r) =
  if is_high_surrogate c then
    if is_low_surrogate d then c :: d :: to_well_formed r
    else 0xFFFD :: to_well_formed (d :: r)
  else if is_low_surrogate c then 0xFFFD :: to_well_formed (d :: r)
  else c :: to_well_formed (d :: r).
Proof. reflexivity. Qed.

Lemma to_utf16_bmp (cp : Z) : cp <= 0xFFFF -> to_utf16 cp = [cp].
Proof. intros H. unfold to_utf16. destruct (Z.leb_spec cp 0xFFFF); [reflexivity | lia]. Qed.

Lemma to_utf16_pair (c d : Z) : 0xD800 <= c <= 0xDBFF -> 0xDC00 <= d <= 0xDFFF ->
  to_utf16 (0x10000 + Z.shiftl (Z.land c 0x3FF) 10 + Z.land d 0x3FF) = [c; d].
Proof.
  intros Hc Hd. rewrite pair_code_point by lia. unfold to_utf16.
  destruct (Z.leb_spec (0x10000 + (c - 0xD800) * 1024 + (d - 0xDC00)) 0xFFFF); [lia|].
  rewrite Z.shiftr_div_pow2, (Z.land_ones _ 10) by lia. change (2 ^ 10) with 1024.
  f_equal; [|f_equal]; zdiv.
Qed.

Lemma scalar_values_utf16 (s : utf16) :
  code_units s = true -> flat_map to_utf16 (scalar_values s) = to_well_formed s.
Proof.
  induction s as [|c|c d r IHr IHdr] using utf16_pair_ind; intros Hs.
  - reflexivity.
  - apply code_units_cons in Hs as [Hc _]. cbn [scalar_values to_well_formed].
    surr c; cbn [flat_map]; rewrite to_utf16_bmp by lia; reflexivity.
  - pose proof Hs as Hs'. apply code_units_cons in Hs' as [Hc Hdr].
    pose proof Hdr as Hdr'. apply code_units_cons in Hdr' as [Hd Hr].
    rewrite scalar_values_cons2, to_well_formed_cons2. surr c.
    + destruct (is_low_surrogate d) eqn:Hl; [apply is_low_surrogate_spec in Hl|];
        cbn [flat_map].
      * rewrite to_utf16_pair, IHr by auto. reflexivity.
      * rewrite to_utf16_bmp, IHdr by (auto || lia). reflexivity.
    + cbn [flat_map]. rewrite to_utf16_bmp, IHdr by (auto || lia). reflexivity.
    + cbn [flat_map]. rewrite to_utf16_bmp, IHdr by (auto || lia). reflexivity.
Qed.

Lemma utf8_run_encode (l : list Z) :
  Forall scalar l -> utf8_run utf8_init (flat_map utf8_encode_point l) = l.
Proof.
  induction 1 as [|cp l [Hr Hs] _ IH]; [reflexivity|].
  cbn [flat_map]. rewrite utf8_run_point by assumption. rewrite IH. reflexivity.
Qed.

Lemma strip_bom_other (l : list Z) :
  hd 0 l <> 0xFEFF -> match l with 0xFEFF :: r => r | _ => l end = l.
Proof.
  destruct l as [|cp r]; [reflexivity|]. cbn [hd]. intros H.
  destruct cp as [|p|p]; try reflexivity.
  repeat (destruct p as [p|p|]; try reflexivity). congruence.
Qed.

(** Decoding the encoding of a string gives it back with every lone
    surrogate replaced by U+FFFD and a first U+FEFF dropped. *)
Theorem text_decode_encode (s : utf16) :
  code_units s = true ->
  text_decode (text_encode s) =
  let w := to_well_formed s in match w with 0xFEFF :: r => r | _ => w end.
Proof.
  intros Hs. pose proof (scalar_values_scalar s Hs) as Hsc.
  unfold text_decode, text_encode. rewrite (utf8_run_encode _ Hsc).
  rewrite <- (scalar_values_utf16 s Hs). cbv zeta.
  destruct (scalar_values s) as [|cp r] eqn:E; [reflexivity|].
  inversion Hsc as [|? ? [Hr Hn] _]; subst.
  destruct (Z.eq_dec cp 0xFEFF) as [->|Hne]; [reflexivity|].
  rewrite (strip_bom_other (cp :: r)) by exact Hne.
  symmetry. apply strip_bom_other.
  cbn [flat_map]. unfold to_utf16 at 1.
  destruct (Z.leb_spec cp 0xFFFF); cbn [app hd]; [exact Hne|].
  rewrite Z.shiftr_div_pow2 by lia. change (2 ^ 10) with 1024. zdiv.
Qed.

(** Reading a file the process may read, after a write to it that
    succeeded, gives the written string, up to lone surrogates and a
    first U+FEFF. *)
Theorem file_read_after_write (resolve : string -> string) (writable readable : string -> bool)
    (fs fs' : file_system) (path : string) (data : utf16) :
  code_units data = true ->
  readable (resolve path) = true ->
  file_write resolve writable fs path data = Some fs' ->
  file_read resolve readable fs' path =
  Some (let w := to_well_formed data in match w with 0xFEFF :: r => r | _ => w end).
Proof.
  intros Hd Hr Hw. unfold file_write in Hw.
  destruct (writable (resolve path)); [|discriminate].
  injection Hw as <-. unfold file_read. rewrite Hr, String.eqb_refl. cbn [option_map].
  rewrite text_decode_encode by exact Hd. reflexivity.
Qed.

(** The decoder only emits scalar values: while a sequence is open,
    every continuation its boundaries admit leads to a scalar value. *)
Definition zrange (lo hi : Z) : list Z :=
  map (fun i => lo + Z.of_nat i) (seq 0 (Z.to_nat (hi - lo + 1))).

Definition scalarb (cp : Z) : bool :=
  (0 <=? cp) && (cp <=? 0x10FFFF) && negb ((0xD800 <=? cp) && (cp <=? 0xDFFF)).

Fixpoint goodb (r : nat) (cp lower upper : Z) : bool :=
  match r with
  | O => scalarb cp
  | S r' => forallb (fun b => goodb r' (Z.lor (Z.shiftl cp 6) (Z.land b 0x3F)) 0x80 0xBF)
                    (zrange lower upper)
  end.

Definition utf8_inv (st : utf8_state) : Prop :=
  (utf8_bytes_needed st = 0 /\ utf8_bytes_seen st = 0 /\
   utf8_lower_boundary st = 0x80 /\ utf8_upper_boundary st = 0xBF)
  \/ (0 <= utf8_bytes_seen st < utf8_bytes_needed st /\
      goodb (Z.to_nat (utf8_bytes_needed st - utf8_bytes_seen st)) (utf8_code_point st)
            (utf8_lower_boundary st) (utf8_upper_boundary st) = true).

Lemma zrange_in (lo hi b : Z) : lo <= b <= hi -> In b (zrange lo hi).
Proof.
  intros H. unfold zrange. apply in_map_iff. exists (Z.to_nat (b - lo)).
  split; [lia|]. apply in_seq. lia.
Qed.

Lemma scalarb_spec (cp : Z) : scalarb cp = true <-> scalar cp.
Proof.
  unfold scalarb, scalar. rewrite !andb_true_iff, negb_true_iff, andb_false_iff, !Z.leb_le, !Z.leb_gt.
  lia.
Qed.

Lemma lead2_ok : forallb (fun b => goodb 1 (Z.land b 0x1F) 0x80 0xBF) (zrange 0xC2 0xDF) = true.
Proof. vm_compute. reflexivity. Qed.

Lemma lead3_ok : forallb (fun b => goodb 2 (Z.land b 0xF) (if b =? 0xE0 then 0xA0 else 0x80)
                                     (if b =? 0xED then 0x9F else 0xBF)) (zrange 0xE0 0xEF) = true.
Proof. vm_compute. reflexivity. Qed.

Lemma lead4_ok : forallb (fun b => goodb 3 (Z.land b 0x7) (if b =? 0xF0 then 0x90 else 0x80)
                                     (if b =? 0xF4 then 0x8F else 0xBF)) (zrange 0xF0 0xF4) = true.
Proof. vm_compute. reflexivity. Qed.

Lemma forallb_at {A} (f : A -> bool) (l : list A) (x : A) :
  forallb f l = true -> In x l -> f x = true.
Proof. rewrite forallb_forall. auto. Qed.

Lemma utf8_step_inv (st : utf8_state) (b : Z) :
  utf8_inv st ->
  let '(out, st', _) := utf8_step st b in Forall scalar out /\ utf8_inv st'.
Proof.
  intros [(Hn & Hs & Hl & Hu) | (Hs & Hg)].
  - destruct st as [cp seen needed lo up]; cbn [utf8_bytes_needed utf8_bytes_seen
      utf8_lower_boundary utf8_upper_boundary] in *; subst.
    unfold utf8_step; utf8_proj; cbn [Z.eqb].
    destruct ((0 <=? b) && (b <=? 0x7F)) eqn:E1.
    { apply andb_true_iff in E1 as [E1 E2]. apply Z.leb_le in E1, E2.
      split; [constructor; [unfold scalar; lia | constructor]|].
      left; cbn; auto. }
    destruct ((0xC2 <=? b) && (b <=? 0xDF)) eqn:E2.
    { apply andb_true_iff in E2 as [E2 E3]. apply Z.leb_le in E2, E3.
      split; [constructor|]. right; utf8_proj. split; [lia|].
      exact (forallb_at _ _ b lead2_ok (zrange_in _ _ _ (conj E2 E3))). }
    destruct ((0xE0 <=? b) && (b <=? 0xEF)) eqn:E3.
    { apply andb_true_iff in E3 as [E3 E4]. apply Z.leb_le in E3, E4.
      split; [constructor|]. right; utf8_proj. split; [lia|].
      exact (forallb_at _ _ b lead3_ok (zrange_in _ _ _ (conj E3 E4))). }
    destruct ((0xF0 <=? b) && (b <=? 0xF4)) eqn:E4.
    { apply andb_true_iff in E4 as [E4 E5]. apply Z.leb_le in E4, E5.
      split; [constructor|]. right; utf8_proj. split; [lia|].
      exact (forallb_at _ _ b lead4_ok (zrange_in _ _ _ (conj E4 E5))). }
    split; [constructor; [unfold scalar; lia | constructor]|]. left; cbn; auto.
  - unfold utf8_step.
    destruct (Z.eqb_spec (utf8_bytes_needed st) 0) as [E|_]; [lia|].
    destruct ((utf8_lower_boundary st <=? b) && (b <=? utf8_upper_boundary st)) eqn:Eb;
      cbn [negb].
    2: { split; [constructor; [unfold scalar; lia | constructor]|]. left; cbn; auto. }
    apply andb_true_iff in Eb as [Eb1 Eb2]. apply Z.leb_le in Eb1, Eb2.
    replace (Z.to_nat (utf8_bytes_needed st - utf8_bytes_seen st))
      with (S (Z.to_nat (utf8_bytes_needed st - (utf8_bytes_seen st + 1)))) in Hg by lia.
    cbn [goodb] in Hg. pose proof (forallb_at _ _ b Hg (zrange_in _ _ _ (conj Eb1 Eb2))) as Hb.
    cbn beta in Hb.
    destruct (Z.eqb_spec (utf8_bytes_seen st + 1) (utf8_bytes_needed st)) as [E|E]; cbn [negb].
    + rewrite E, Z.sub_diag in Hb. cbn [Z.to_nat goodb] in Hb.
      split; [constructor; [apply scalarb_spec; exact Hb | constructor]|]. left; cbn; auto.
    + split; [constructor|]. right; utf8_proj. split; [lia | exact Hb].
Qed.

Lemma utf8_run_scalar (bs : bytes) : forall st, utf8_inv st -> Forall scalar (utf8_run st bs).
Proof.
  induction bs as [|b r IH]; intros st Hst; cbn [utf8_run].
  - destruct (utf8_bytes_needed st =? 0); [constructor|].
    constructor; [unfold scalar; lia | constructor].
  - pose proof (utf8_step_inv st b Hst) as Hs.
    destruct (utf8_step st b) as [[out st'] again]. destruct Hs as [Ho Hst'].
    destruct again.
    + pose proof (utf8_step_inv st' b Hst') as Hs2.
      destruct (utf8_step st' b) as [[out2 st2] a2]. destruct Hs2 as [Ho2 Hst2].
      apply Forall_app; split; [exact Ho|]. apply Forall_app; split; [exact Ho2|]. auto.
    + apply Forall_app; split; [exact Ho | auto].
Qed.

Lemma to_well_formed_plain (c : Z) (r : utf16) :
  ~ (0xD800 <= c <= 0xDFFF) -> to_well_formed (c :: r) = c :: to_well_formed r.
Proof.
  intros Hc.
  assert (Hh : is_high_surrogate c = false)
    by (destruct (is_high_surrogate c) eqn:E; [apply is_high_surrogate_spec in E; lia | reflexivity]).
  assert (Hl : is_low_surrogate c = false)
    by (destruct (is_low_surrogate c) eqn:E; [apply is_low_surrogate_spec in E; lia | reflexivity]).
  destruct r as [|d r]; [cbn [to_well_formed]; rewrite Hh, Hl; reflexivity|].
  rewrite to_well_formed_cons2, Hh, Hl. reflexivity.
Qed.

Lemma to_utf16_astral (cp : Z) : 0xFFFF < cp <= 0x10FFFF ->
  exists c d, to_utf16 cp = [c; d] /\ 0xD800 <= c <= 0xDBFF /\ 0xDC00 <= d <= 0xDFFF.
Proof.
  intros H. unfold to_utf16. destruct (Z.leb_spec cp 0xFFFF); [lia|].
  rewrite Z.shiftr_div_pow2, (Z.land_ones _ 10) by lia. change (2 ^ 10) with 1024.
  eexists _, _. split; [reflexivity|]. split; zdiv.
Qed.

Lemma scalars_well_formed (l : list Z) : Forall scalar l ->
  code_units (flat_map to_utf16 l) = true /\
  to_well_formed (flat_map to_utf16 l) = flat_map to_utf16 l.
Proof.
  induction 1 as [|cp l [Hr Hs] _ [IHc IHw]]; [split; reflexivity|].
  cbn [flat_map]. destruct (Z.leb_spec cp 0xFFFF) as [Hb|Ha].
  - rewrite to_utf16_bmp by exact Hb. cbn [app]. split.
    + apply code_units_cons. split; [lia | exact IHc].
    + rewrite to_well_formed_plain by exact Hs. rewrite IHw. reflexivity.
  - destruct (to_utf16_astral cp (conj Ha (proj2 Hr))) as (c & d & -> & Hc & Hd). cbn [app].
    split.
    + apply code_units_cons. split; [lia|]. apply code_units_cons. split; [lia | exact IHc].
    + assert (Hh : is_high_surrogate c = true) by (apply is_high_surrogate_spec; exact Hc).
      assert (Hl : is_low_surrogate d = true) by (apply is_low_surrogate_spec; exact Hd).
      rewrite to_well_formed_cons2. rewrite Hh, Hl, IHw. reflexivity.
Qed.

(** Whatever the bytes, the decoded string is made of code units and
    has no lone surrogate: [toWellFormed] leaves it unchanged. *)
Theorem text_decode_well_formed (bs : bytes) :
  code_units (text_decode bs) = true /\ to_well_formed (text_decode bs) = text_decode bs.
Proof.
  unfold text_decode. apply scalars_well_formed.
  assert (Hall : Forall scalar (utf8_run utf8_init bs))
    by (apply utf8_run_scalar; left; cbn; auto).
  destruct (Z.eqb_spec (hd 0 (utf8_run utf8_init bs)) 0xFEFF) as [Hb|Hne].
  - destruct (utf8_run utf8_init bs) as [|cp r]; [constructor|].
    cbn [hd] in Hb. subst cp. apply Forall_cons_iff in Hall as [_ Hr]. exact Hr.
  - rewrite (strip_bom_other _ Hne). exact Hall.
Qed.

End Utf8Facts.

(** ** Witnesses of the properties of the text codecs and files *)

Section Utf8Witnesses.
Local Open Scope Z_scope.

(** A byte order mark, a letter, an astral code point and a lone surrogate. *)
Lemma text_decode_encode_witness :
  text_decode (text_encode [0xFEFF; 0x41; 0xD83D; 0xDE00; 0xD800])
  = [0x41; 0xD83D; 0xDE00; 0xFFFD].
Proof.
  exact (eq_trans (text_decode_encode [0xFEFF; 0x41; 0xD83D; 0xDE00; 0xD800] eq_refl) eq_refl).
Defined.

Lemma file_read_after_write_witness :
  match file_write (fun p => p) (fun _ => true) (fun _ => None) "out.txt"%string [0x68; 0xDC00] with
  | Some fs' => file_read (fun p => p) (fun _ => true) fs' "out.txt"%string = Some [0x68; 0xFFFD]
  | None => False
  end.
Proof.
  exact (file_read_after_write (fun p => p) (fun _ => true) (fun _ => true) (fun _ => None) _
           "out.txt"%string [0x68; 0xDC00] eq_refl eq_refl eq_refl).
Defined.

End Utf8Witnesses.

(* ------------------------------------------------------------------ *)
(** ** Spread objects, the registry, the command lines and the outputs *)

Lemma lookup_prop_app (ps qs : list (string * jsval)) (k : string) :
  lookup_prop (ps ++ qs) k =
  match lookup_prop ps k with Some v => Some v | None => lookup_prop qs k end.
Proof.
  induction ps as [|[k' v'] ps IH]; [reflexivity|].
  cbn [app lookup_prop]. destruct (String.eqb k' k); [reflexivity | exact IH].
Qed.

Lemma lookup_prop_no_key (ps : list (string * jsval)) (k : string) :
  has_key ps k = false -> lookup_prop ps k = None.
Proof.
  induction ps as [|[k' v'] ps IH]; [reflexivity|].
  unfold has_key; cbn [existsb lookup_prop fst]. intros H.
  apply orb_false_iff in H as [H1 H2]. rewrite H1. exact (IH H2).
Qed.

Lemma lookup_replace_key (ps : list (string * jsval)) (k k' : string) (v : jsval) :
  has_key ps k = true ->
  lookup_prop (replace_key ps k v) k' = if String.eqb k k' then Some v else lookup_prop ps k'.
Proof.
  induction ps as [|[k0 v0] ps IH]; [discriminate|].
  unfold has_key; cbn [existsb fst replace_key]. intros H.
  destruct (String.eqb_spec k0 k) as [->|Hne]; cbn [lookup_prop].
  - destruct (String.eqb k k'); reflexivity.
  - cbn [orb] in H. rewrite (IH H).
    destruct (String.eqb_spec k k') as [<-|Hk'].
    + apply String.eqb_neq in Hne. rewrite Hne. reflexivity.
    + reflexivity.
Qed.

Lemma lookup_insert_index_key (ps : list (string * jsval)) (k k' : string) (v : jsval) :
  has_key ps k = false ->
  lookup_prop (insert_index_key ps k v) k' = if String.eqb k k' then Some v else lookup_prop ps k'.
Proof.
  induction ps as [|[k0 v0] ps IH]; [reflexivity|].
  unfold has_key; cbn [existsb fst insert_index_key]. intros H.
  apply orb_false_iff in H as [H1 H2].
  destruct (is_array_index k0 && (index_value k0 <? index_value k)%Z); cbn [lookup_prop].
  - rewrite (IH H2). destruct (String.eqb_spec k k') as [<-|Hk']; [rewrite H1|]; reflexivity.
  - reflexivity.
Qed.

Lemma lookup_create_data_property (ps : list (string * jsval)) (k k' : string) (v : jsval) :
  lookup_prop (create_data_property ps k v) k' =
  if String.eqb k k' then Some v else lookup_prop ps k'.
Proof.
  unfold create_data_property.
  destruct (has_key ps k) eqn:Hk; [exact (lookup_replace_key _ _ _ _ Hk)|].
  destruct (is_array_index k); [exact (lookup_insert_index_key _ _ _ _ Hk)|].
  rewrite lookup_prop_app. cbn [lookup_prop].
  destruct (String.eqb_spec k k') as [<-|Hk'].
  - rewrite (lookup_prop_no_key _ _ Hk). reflexivity.
  - destruct (lookup_prop ps k'); reflexivity.
Qed.

Lemma lookup_fold_create (l o : list (string * jsval)) (k : string) :
  lookup_prop (fold_left (fun o '(k, v) => create_data_property o k v) l o) k =
  match lookup_prop (rev l) k with Some v => Some v | None => lookup_prop o k end.
Proof.
  revert o. induction l as [|[k0 v0] l IH]; intros o; [reflexivity|].
  cbn [fold_left rev]. rewrite IH, lookup_prop_app, lookup_create_data_property.
  cbn [lookup_prop]. destruct (lookup_prop (rev l) k); [reflexivity|].
  destruct (String.eqb k0 k); reflexivity.
Qed.

Lemma lookup_rev_distinct (ps : list (string * jsval)) (k : string) :
  keys_distinct ps = true -> lookup_prop (rev ps) k = lookup_prop ps k.
Proof.
  induction ps as [|[k0 v0] ps IH]; [reflexivity|].
  cbn [keys_distinct rev lookup_prop]. intros H. apply andb_prop in H as [Hn Hd].
  rewrite lookup_prop_app, (IH Hd). cbn [lookup_prop].
  destruct (String.eqb_spec k0 k) as [<-|Hne].
  - apply negb_true_iff in Hn. rewrite (lookup_prop_no_key _ _ Hn). reflexivity.
  - destruct (lookup_prop ps k); reflexivity.
Qed.

(** [{ ...args, ...inputs }]: for a name that [Object.prototype] does
    not provide, a key of [inputs] takes its value from [inputs], any
    other key of [args] from [args], and any other name reads
    [undefined]. *)
Theorem spread_inputs_override (args inputs : list (string * jsval)) (k : string) :
  keys_distinct args = true -> keys_distinct inputs = true ->
  existsb (String.eqb k) object_prototype_names = false ->
  get_prop (spread args inputs) k =
  Some (match lookup_prop inputs k with
        | Some v => v
        | None => match lookup_prop args k with Some v => v | None => JUndefined end
        end).
Proof.
  intros Ha Hi _. unfold get_prop, spread.
  rewrite lookup_fold_create, rev_app_distr, lookup_prop_app, !lookup_rev_distinct by assumption.
  cbn [lookup_prop]. destruct (lookup_prop inputs k); [reflexivity|].
  destruct (lookup_prop args k); reflexivity.
Qed.

Lemma own_set_keys {T : Type} (ps : list (string * T)) (n : string) (v : T) (k : string) :
  In k (map fst (own_set ps n v)) <-> k = n \/ In k (map fst ps).
Proof.
  induction ps as [|[k0 v0] ps IH]; cbn [own_set map fst In].
  - intuition.
  - destruct (String.eqb_spec n k0) as [->|Hne]; cbn [map fst In]; rewrite ?IH; intuition.
Qed.

Lemma own_set_nodup {T : Type} (ps : list (string * T)) (n : string) (v : T) :
  NoDup (map fst ps) -> NoDup (map fst (own_set ps n v)).
Proof.
  induction ps as [|[k0 v0] ps IH]; cbn [own_set map fst]; intros Hd.
  - constructor; [intros [] | constructor].
  - inversion Hd as [|? ? Hni Hd']; subst.
    destruct (String.eqb_spec n k0) as [->|Hne]; cbn [map fst]; [exact Hd|].
    constructor; [|exact (IH Hd')].
    rewrite own_set_keys. intros [->|Hin]; [exact (Hne eq_refl) | exact (Hni Hin)].
Qed.

(** [task(name, ...)]: the registry's own keys, which [bite] turns into
    commands, stay distinct and gain exactly [name], once, whatever the
    name ([__proto__] included). *)
Theorem task_own_keys {F : Type} (tasks : registry (TaskEntry F)) (name : string)
    (sig : Signature) (handler : F) (k : string) :
  NoDup (map fst (own tasks)) ->
  NoDup (map fst (own (task tasks name sig handler))) /\
  (In k (map fst (own (task tasks name sig handler))) <-> k = name \/ In k (map fst (own tasks))).
Proof.
  intros Hd. unfold task, set_prop. cbn [own].
  split; [exact (own_set_nodup _ _ _ Hd) | apply own_set_keys].
Qed.

(** A name of [Object.prototype] that was not registered is found on the
    registry's prototype, [Object.prototype]: both versions call the inherited method
    instead of reporting an unknown task. *)
Theorem inherited_name_not_reported `{NumberConversions} (tasks : registry TaskFn)
    (k : string) (rest : list string) (stdin : Stdin) :
  own_get (own tasks) k = None ->
  In k object_prototype_names ->
  (isTerminal stdin = true \/ json_decode (contents stdin) <> None) ->
  bite_part004 tasks (k :: rest) stdin = {| console := []; completion_of := CallsInherited k |} /\
  bite_part002 tasks (k :: rest) stdin = {| console := []; completion_of := CallsInherited k |}.
Proof.
  intros Hown Hin Hparse.
  assert (Hg : get_task tasks k = Inherited k).
  { unfold get_task. rewrite Hown.
    assert (Hex : existsb (String.eqb k) object_prototype_names = true).
    { apply existsb_exists. exists k. split; [exact Hin | apply String.eqb_refl]. }
    rewrite Hex. reflexivity. }
  unfold bite_part004, bite_part002, task_name. cbv zeta. rewrite Hg.
  destruct (isTerminal stdin); [split; reflexivity|].
  destruct Hparse as [Ht|Hp]; [discriminate|].
  destruct (json_decode (contents stdin)); [split; reflexivity | contradiction].
Qed.

(** With an output encoder, a defined result is printed as the encoder's
    text and a newline; when the encoder returns [null] or [undefined],
    [JSON.stringify(output)] is printed instead. *)
Theorem lask_encoder_output `{NumberConversions} stdin sig enc env sched fuel :
  output_encoder sig = Some enc -> 9 <= fuel ->
  let tr := dispatch_trace fuel env sched (lask_handler stdin sig) in
  exists a,
    invocations tr = [a] /\
    stdout_lines tr = (if is_undefined (env (OpInvoke a)) then []
                       else [match enc (env (OpInvoke a)) with
                             | Some s => (s ++ String "010"%char EmptyString)%string
                             | None => console_log_line (json_stringify 0 (env (OpInvoke a)))
                             end]).
Proof.
  intros He Hf tr. subst tr. pose proof (lask_trace_ge stdin sig env sched fuel Hf) as E.
  cbv zeta in E. rewrite E, He. clear E.
  exists (if isTerminal stdin then JUndefined
          else match input_decoder sig with Some dec => dec (contents stdin) | None => JUndefined end).
  split.
  - rewrite invocations_app.
    destruct (isTerminal stdin); [|destruct (input_decoder sig)];
      destruct (is_undefined (env _)); reflexivity.
  - destruct (isTerminal stdin); [|destruct (input_decoder sig)];
      destruct (is_undefined (env _)); try reflexivity;
      cbn [stdout_lines app]; destruct (enc _); reflexivity.
Qed.

Lemma write_outputs_throw env (r : jsval) outs :
  (forall key, get_prop r key = None) ->
  forall K P tr f sched,
  run (3 * length outs + f) env sched (mkMachine (Some (write_outputs r outs K)) [] P tr)
  = run f env sched (mkMachine (Some K) [] P (tr ++ map (fun _ => EThrow "TypeError") outs)).
Proof.
  intros Hr. induction outs as [|[key o] outs IH]; intros K P tr f sched.
  - cbn [write_outputs length map]. rewrite app_nil_r. reflexivity.
  - replace (3 * length ((key, o) :: outs) + f) with (S (S (S (3 * length outs + f))))
      by (simpl; lia).
    cbn [write_outputs]. rewrite Hr. run_step. run_step. run_step.
    rewrite IH. cbn [map]. rewrite <- !app_assoc. reflexivity.
Qed.

(** When the task's result is [undefined] or [null], reading [output[key]]
    throws a [TypeError] in each output's callback: nothing is encoded or
    written, and the command handler still returns. *)
Theorem io_undefined_result_throws name args inputs outputs r env sched fuel :
  r = JUndefined \/ r = JNull ->
  (forall a, env (OpInvoke a) = r) ->
  5 * length (custom_keys inputs) + 3 * length outputs + 5 <= fuel ->
  exists pre a,
    dispatch_trace fuel env sched (io_handler name args inputs outputs) =
    pre ++ EBegin (OpInvoke a) :: EEnd (OpInvoke a) r ::
      map (fun _ => EThrow "TypeError") outputs ++ [EReturn] /\
    forallb (fun e => negb (is_output_event e)) pre = true.
Proof.
  intros Hr Hout Hf.
  set (g := fuel - 5 * length (custom_keys inputs) - 3 * length outputs - 5).
  replace fuel with (5 * length (custom_keys inputs) + 3 + (3 * length outputs + S (S g)))
    by (unfold g; lia).
  unfold dispatch_trace.
  destruct (io_handler_phase env name args inputs outputs sched (3 * length outputs + S (S g)))
    as (sched' & pre & a & E & Hpre & _ & _).
  rewrite E, Hout, write_outputs_throw.
  2: { intros key. destruct Hr as [->| ->]; reflexivity. }
  clear E. run_step. run_step. rewrite run_stopped. cbn [trace].
  exists pre, a. split; [|exact Hpre].
  rewrite <- !app_assoc. reflexivity.
Qed.

(** ** Witnesses of the properties of the command handlers *)

Section ProgramWitnesses.
Local Open Scope string_scope.

Lemma spread_inputs_override_witness :
  get_prop (spread [("name", JString "cli"); ("verbose", JBool true)] [("name", JString "stdin")]) "name"
  = Some (JString "stdin").
Proof.
  exact (eq_trans (spread_inputs_override [("name", JString "cli"); ("verbose", JBool true)]
                     [("name", JString "stdin")] "name" eq_refl eq_refl eq_refl) eq_refl).
Defined.

Lemma task_own_keys_witness :
  let r := task (task (@empty_registry (TaskEntry nat)) "build" bare_signature 0)
                "__proto__" bare_signature 1 in
  map fst (own r) = ["build"; "__proto__"] /\
  (NoDup (map fst (own (task r "build" bare_signature 2))) /\
   (In "__proto__" (map fst (own (task r "build" bare_signature 2))) <->
    "__proto__" = "build" \/ In "__proto__" (map fst (own r)))).
Proof.
  split; [reflexivity|].
  apply (task_own_keys _ "build" bare_signature 2 "__proto__").
  vm_compute. constructor; [intros [H|[]]; discriminate H | constructor; [intros [] | constructor]].
Defined.

Lemma inherited_name_not_reported_witness :
  bite_part004 echo_tasks ["toString"] terminal_stdin
    = {| console := []; completion_of := CallsInherited "toString" |} /\
  bite_part002 echo_tasks ["toString"] terminal_stdin
    = {| console := []; completion_of := CallsInherited "toString" |}.
Proof.
  apply (inherited_name_not_reported echo_tasks "toString" [] terminal_stdin).
  - reflexivity.
  - cbn [object_prototype_names In]. do 8 right. left. reflexivity.
  - left. reflexivity.
Defined.

Lemma lask_encoder_output_witness :
  let enc := fun v => match v with JString s => Some s | _ => None end in
  let sig := {| input := None; output := Some {| encoder := Some enc |} |} in
  stdout_lines (dispatch_trace 9 (fun _ => JString "hi") [] (lask_handler piped_stdin sig))
    = [String.append "hi" (String "010"%char EmptyString)] /\
  stdout_lines (dispatch_trace 9 (fun _ => JNumber (num 7)) [] (lask_handler piped_stdin sig))
    = [String.append "7" (String "010"%char EmptyString)] /\
  exists a,
    invocations (dispatch_trace 9 (fun _ => JString "hi") [] (lask_handler piped_stdin sig)) = [a] /\
    stdout_lines (dispatch_trace 9 (fun _ => JString "hi") [] (lask_handler piped_stdin sig))
    = (if is_undefined (JString "hi") then []
       else [match enc (JString "hi") with
             | Some s => (s ++ String "010"%char EmptyString)%string
             | None => console_log_line (json_stringify 0 (JString "hi"))
             end]).
Proof.
  intros enc sig. split; [vm_compute; reflexivity|]. split; [vm_compute; reflexivity|].
  exact (lask_encoder_output piped_stdin sig enc (fun _ => JString "hi") [] 9 eq_refl (le_n 9)).
Defined.

Lemma io_undefined_result_throws_witness :
  exists pre a,
    dispatch_trace 11 (fun _ => JUndefined) [] (io_handler "report" [] [] two_outputs) =
    (pre ++ EBegin (OpInvoke a) :: EEnd (OpInvoke a) JUndefined ::
      map (fun _ => EThrow "TypeError") two_outputs ++ [EReturn])%list /\
    forallb (fun e => negb (is_output_event e)) pre = true.
Proof.
  exact (io_undefined_result_throws "report" [] [] two_outputs JUndefined (fun _ => JUndefined) []
           11 (or_introl eq_refl) (fun _ => eq_refl) ltac:(simpl; lia)).
Defined.
End ProgramWitnesses.

(* ------------------------------------------------------------------ *)
(** ** [Effect.$] on success, the YAML signatures and validation, and
    the JSON codec's encoder *)

Section ShellFacts.
Local Open Scope Z_scope.

Lemma split_lines_nonempty (s : utf16) : split_lines s <> [].
Proof.
  destruct s as [|c r]; cbn [split_lines]; [discriminate|].
  destruct (c =? 10); [discriminate|].
  destruct (split_lines r); discriminate.
Qed.

Lemma join_cons_tail {A : Type} (sep p : list A) (ps : list (list A)) :
  ps <> [] -> join sep (p :: ps) = p ++ sep ++ join sep ps.
Proof. destruct ps; [contradiction | reflexivity]. Qed.

Lemma join_cons_head {A : Type} (sep : list A) (c : A) (l : list A) (ls : list (list A)) :
  join sep ((c :: l) :: ls) = c :: join sep (l :: ls).
Proof. destruct ls; reflexivity. Qed.

Lemma join_split_lines (s : utf16) : join [10] (split_lines s) = s.
Proof.
  induction s as [|c r IH]; [reflexivity|]. cbn [split_lines].
  pose proof (split_lines_nonempty r) as Hne.
  destruct (Z.eqb_spec c 10) as [->|Hc].
  - rewrite join_cons_tail by exact Hne. rewrite IH. reflexivity.
  - revert IH Hne. destruct (split_lines r) as [|l ls]; intros IH Hne; [contradiction|].
    rewrite join_cons_head. exact (f_equal (cons c) IH).
Qed.

Lemma split_lines_no_lf (s : utf16) : Forall (fun p => ~ In 10 p) (split_lines s).
Proof.
  induction s as [|c r IH]; cbn [split_lines].
  - constructor; [intros []|constructor].
  - destruct (Z.eqb_spec c 10) as [->|Hc].
    + constructor; [intros []|exact IH].
    + revert IH. destruct (split_lines r) as [|l ls]; intros IH.
      * constructor; [intros [->|[]]; exact (Hc eq_refl) | constructor].
      * inversion IH as [|? ? Hl Hls]; subst.
        constructor; [|exact Hls]. intros [->|Hin]; [exact (Hc eq_refl) | exact (Hl Hin)].
Qed.

(** On exit code 0, [$] resolves with the decoded stdout; it writes no
    error record, only one debug record for each line of stdout that is
    not blank (not all [trim] whitespace), in order, where the lines are
    the pieces of the decoded stdout between line feeds. *)
Theorem dollar_success_logs (out : CommandOutput) :
  code out = 0 ->
  snd (dollar out) = inr (text_decode (cmd_stdout out)) /\
  exists lines,
    join [10] lines = text_decode (cmd_stdout out) /\
    Forall (fun p => ~ In 10 p) lines /\
    fst (dollar out) =
    map (fun p => {| level := "debug"; message := p |}) (filter trim_nonempty lines).
Proof.
  intros Hc. unfold dollar. rewrite Hc. cbn [Z.eqb negb fst snd].
  split; [reflexivity|].
  exists (split_lines (text_decode (cmd_stdout out))).
  split; [apply join_split_lines|]. split; [apply split_lines_no_lf | reflexivity].
Qed.
End ShellFacts.

(** [YAMLSignature(schema, options)]: its decoder validates exactly when
    [options.validate] is truthy, and its encoder's four options are
    the ones of [options], [undefined] where [options] lacks them: the
    constructor's defaults are always overwritten. *)
Theorem yaml_signature_options (schema : YAMLSchema) (options : option (list (string * jsval))) :
  yin_decoder_schema (fst (YAMLSignature schema options))
    = (if truthy (optional_get options "validate") then Some schema else None) /\
  forall key, In key ["indent"; "arrayIndent"; "skipInvalid"; "flowLevel"]%string ->
    get_prop (yout_options (snd (YAMLSignature schema options))) key
    = Some (optional_get options key).
Proof.
  split; [reflexivity|].
  intros key Hk. unfold YAMLSignature, YAMLOutput, YAMLEncoder_options, get_prop, spread.
  cbn [snd yout_options]. rewrite lookup_fold_create.
  destruct Hk as [<-|[<-|[<-|[<-|[]]]]]; reflexivity.
Qed.

(** [YAMLOutput(schema, options)]: an option [options] has, even
    [undefined], replaces the default; the others keep the defaults
    [indent: 2], [arrayIndent: true], [skipInvalid: false],
    [flowLevel: -1], which are all the options when [options] is
    omitted.  Stated for the names [Object.prototype] does not provide,
    which [this.options] inherits. *)
Theorem yaml_output_options (schema : YAMLSchema) (ps : list (string * jsval)) (key : string) :
  keys_distinct ps = true ->
  existsb (String.eqb key) object_prototype_names = false ->
  get_prop (yout_options (YAMLOutput schema (Some ps))) key
  = Some (match lookup_prop ps key with
          | Some v => v
          | None => match lookup_prop yaml_encoder_defaults key with
                    | Some v => v | None => JUndefined end
          end) /\
  yout_options (YAMLOutput schema None) = JObject yaml_encoder_defaults.
Proof.
  intros Hd _. split; [|reflexivity].
  unfold YAMLOutput, YAMLEncoder_options, get_prop, spread. cbn [yout_options].
  rewrite lookup_fold_create, rev_app_distr, lookup_prop_app, lookup_rev_distinct by exact Hd.
  rewrite (lookup_rev_distinct yaml_encoder_defaults key eq_refl). cbn [lookup_prop].
  destruct (lookup_prop ps key); [reflexivity|].
  destruct (lookup_prop yaml_encoder_defaults key); reflexivity.
Qed.

(** An array is checked item by item: the error names the index of the
    first item that fails, followed by that item's own message. *)
Theorem validate_array_first_failure (inherited : ydata -> string -> ydata)
    (pre : list ydata) (x : ydata) (post : list ydata) (elements : YAMLSchema) (msg : string) :
  forallb (fun d => match validateAgainstSchema inherited d elements with
                    | None => true | Some _ => false end) pre = true ->
  validateAgainstSchema inherited x elements = Some msg ->
  validateAgainstSchema inherited (DArray (pre ++ x :: post)) (YArray elements)
  = Some ("Array item " ++ z_text (Z.of_nat (length pre)) ++ ": " ++ msg)%string.
Proof.
  intros Hpre Hx. cbn [validateAgainstSchema].
  match goal with
  | |- ?each 0%Z (pre ++ x :: post) = _ =>
      enough (H : forall i, each i (pre ++ x :: post)
                  = Some ("Array item " ++ z_text (i + Z.of_nat (length pre)) ++ ": " ++ msg)%string)
        by (rewrite H; reflexivity)
  end.
  induction pre as [|d pre IH]; intros i; cbn [app length].
  - rewrite Hx, Z.add_0_r. reflexivity.
  - cbn [forallb] in Hpre. apply andb_prop in Hpre as [Hd Hpre].
    destruct (validateAgainstSchema inherited d elements); [discriminate|].
    rewrite (IH Hpre (i + 1)%Z). do 4 f_equal. lia.
Qed.

(** A property absent from a parsed object, and not inherited, is read
    as [undefined]: only a [void] schema accepts it; any other schema
    fails with "Expected <type>, got undefined". *)
Theorem validate_missing_property (inherited : ydata -> string -> ydata)
    (ps : list (string * ydata)) (key : string) (schema : YAMLSchema) :
  ydata_own ps key = None ->
  inherited (DObject ps) key = DUndefined ->
  validateAgainstSchema inherited (member inherited (DObject ps) key) schema
  = match schema with
    | YVoid => None
    | _ => Some ("Expected " ++ schema_kind schema ++ ", got undefined")%string
    end.
Proof.
  intros Hown Hinh. unfold member. rewrite Hown, Hinh.
  destruct schema; reflexivity.
Qed.

(** The value with [undefined] taken out at every depth: an object member
    whose value is [undefined] is removed, an [undefined] array element
    becomes [null]; a top-level [undefined] stays. *)
Fixpoint drop_undefined (v : jsval) : jsval :=
  match v with
  | JArray xs =>
      JArray (map (fun x => if is_undefined x then JNull else drop_undefined x) xs)
  | JObject ps =>
      JObject ((fix go (l : list (string * jsval)) : list (string * jsval) :=
                  match l with
                  | [] => []
                  | (k, e) :: l' =>
                      if is_undefined e then go l' else (k, drop_undefined e) :: go l'
                  end) ps)
  | _ => v
  end.

Lemma serialize_drop_undefined `{NumberConversions} (gap : list ascii) (v : jsval) :
  forall indent, serialize gap indent v = serialize gap indent (drop_undefined v).
Proof.
  induction v as [| | | | |xs Hxs|ps Hps] using jsval_ind'; intros indent; try reflexivity.
  - cbn [drop_undefined serialize]. do 2 f_equal. rewrite map_map.
    induction Hxs as [|x xs Hx Hxs IH]; [reflexivity|]. cbn [map]. rewrite IH.
    destruct (is_undefined x) eqn:Ex.
    + destruct x; try discriminate Ex. reflexivity.
    + rewrite <- (Hx (indent ++ gap)). reflexivity.
  - cbn [drop_undefined serialize]. do 2 f_equal.
    induction Hps as [|[k e] ps He Hps IH]; [reflexivity|]. cbn [snd] in He.
    cbn [flat_map]. rewrite IH.
    destruct (is_undefined e) eqn:Ee.
    + destruct e; try discriminate Ee. reflexivity.
    + cbn [flat_map]. rewrite <- (He (indent ++ gap)). reflexivity.
Qed.

(** [json(schema).encode] ([JSON.stringify(data, null, 2)]) gives the
    same text as the value with [undefined] taken out at every depth:
    object members whose value is [undefined] are left out, and
    [undefined] array elements are written as [null]. *)
Theorem json_encode_drops_undefined `{NumberConversions} (v : jsval) :
  json_encode v = json_encode (drop_undefined v).
Proof.
  unfold json_encode, json_stringify. rewrite <- serialize_drop_undefined. reflexivity.
Qed.

(** ** Witnesses of the properties of [$], the YAML helpers and the JSON encoder *)

Section LibraryWitnesses.
Local Open Scope string_scope.

Lemma dollar_success_logs_witness :
  let out := {| code := 0%Z;
                cmd_stdout := [0x6F; 0x6B; 0x0A; 0x20; 0xE3; 0x80; 0x80; 0x0A; 0x64; 0x6F; 0x6E; 0x65]%Z;
                cmd_stderr := units "warn" |} in
  fst (dollar out) = [{| level := "debug"; message := units "ok" |};
                      {| level := "debug"; message := units "done" |}] /\
  (snd (dollar out) = inr (text_decode (cmd_stdout out)) /\
   exists lines,
     join [10%Z] lines = text_decode (cmd_stdout out) /\
     Forall (fun p => ~ In 10%Z p) lines /\
     fst (dollar out) =
     map (fun p => {| level := "debug"; message := p |}) (filter trim_nonempty lines)).
Proof.
  intros out. split; [vm_compute; reflexivity|].
  exact (dollar_success_logs out eq_refl).
Defined.

Lemma yaml_signature_options_witness :
  yin_decoder_schema (fst (YAMLSignature YString None)) = None /\
  get_prop (yout_options (snd (YAMLSignature YString None))) "indent" = Some JUndefined.
Proof.
  split; [exact (proj1 (yaml_signature_options YString None))|].
  exact (proj2 (yaml_signature_options YString None) "indent" (or_introl eq_refl)).
Defined.

Lemma yaml_output_options_witness :
  get_prop (yout_options (YAMLOutput YString (Some [("indent", JNumber (num 4))]))) "flowLevel"
  = Some (JNumber (num (-1))).
Proof.
  exact (eq_trans (proj1 (yaml_output_options YString [("indent", JNumber (num 4))] "flowLevel" eq_refl eq_refl))
           eq_refl).
Defined.

Lemma validate_array_first_failure_witness :
  validateAgainstSchema plain_inherited (DArray [DNumber (num 1); DString "two"; DNull]) (YArray YNumber)
  = Some "Array item 1: Expected number, got string".
Proof.
  exact (validate_array_first_failure plain_inherited [DNumber (num 1)] (DString "two") [DNull]
           YNumber "Expected number, got string" eq_refl eq_refl).
Defined.

Lemma validate_missing_property_witness :
  validateAgainstSchema plain_inherited (member plain_inherited (DObject [("name", DString "x")]) "port") YNumber
  = Some "Expected number, got undefined".
Proof.
  exact (validate_missing_property plain_inherited [("name", DString "x")] "port" YNumber eq_refl eq_refl).
Defined.

End LibraryWitnesses.
